(** * TTL response cache of rhoai_mcp (src/rhoai_mcp/utils/cache.py)

    A shallow embedding of the module: the process-wide store [_cache], the
    key deriver [_make_cache_key], the decorator [cached] and the maintenance
    operations [clear_cache], [clear_expired], [cache_stats], [invalidate].

    Modelling decisions.
    - [_cache : dict[str, tuple[float, Any]]] is a [gmap string (Q * V)]:
      the code never depends on the iteration order of the dict.
    - Clock readings and TTLs are rationals; float rounding is idealised away.
    - The module is effectful: it reads the configuration and the clock, calls
      the wrapped operation and mutates [_cache]. The effects live in a small
      state-and-exception monad [M] over a [world].
    - [get_config] and [time.time] are collaborators outside the module: both are
      read off an abstract external environment [Env], which the wrapped
      operation (and whatever happens between two calls) may change at will.
    - The trace of a world records lock acquisitions, lock releases and
      invocations of the wrapped operation, in chronological order.

    The limit policy of [list_training_jobs] and the listing built by
    [list_training_runtimes]
    (src/rhoai_mcp/domains/training/tools/discovery.py) are embedded in
    [Module Discovery], over their collaborators as parameters. *)

From Stdlib Require Import QArith Ascii.
From stdpp Require Import gmap strings list fin_maps sorting.


(** ** Rational comparisons as the code writes them *)

(** [x < y] on clock differences. *)
Definition Qltb (x y : Q) : bool :=
  (Qnum x * QDen y <? Qnum y * QDen x)%Z.

(** [x >= y] on clock differences. *)
Definition Qgeb (x y : Q) : bool := Qle_bool y x.

(** ** Strings: Python's [in] and the characters of a string *)

(** [pattern in key]: [pattern] occurs in [key] as a contiguous substring. *)
Fixpoint str_in (pattern key : string) : bool :=
  String.prefix pattern key ||
  match key with
  | EmptyString => false
  | String _ key' => str_in pattern key'
  end.

(** [c] occurs in [s]. *)
Fixpoint has_char (c : Ascii.ascii) (s : string) : bool :=
  match s with
  | EmptyString => false
  | String a s' => if decide (a = c) then true else has_char c s'
  end.

(** ** Configuration *)

(** The two fields of the configuration object the module reads. *)
Record config := Config {
  enable_response_caching : bool;
  cache_ttl_seconds : Q
}.

(** The dict returned by [cache_stats]. *)
Record stats := Stats {
  total_entries : Z;
  expired_entries : Z;
  active_entries : Z;
  caching_enabled : bool;
  ttl_seconds : Q
}.

Section Cache.

(** [A]: call arguments, [V]: results of the wrapped operation, [E]: the
    exceptions it raises, [Env]: the world outside the module. *)
Context {A V E Env : Type}.

(** [str(arg)]. *)
Variable str : A → string.
(** [format(v, "")], the form a value takes inside an f-string; it is
    [str(v)] unless the type of [v] overrides [__format__]. *)
Variable fmt : A → string.
(** [rhoai_mcp.config.get_config()], evaluated in the current environment. *)
Variable get_config : Env → config.
(** [time.time()], evaluated in the current environment. *)
Variable time_time : Env → Q.

(** *** Events, worlds, the monad *)

Inductive event :=
| Acquire
| Release
| Invoke (args : list A) (kwargs : gmap string A).

Record world := World {
  _cache : gmap string (Q * V);
  env : Env;
  trace : list event
}.

Inductive exn :=
| KeyError (key : string)
| OpError (e : E).

Inductive result (X : Type) :=
| Return (x : X)
| Raise (e : exn).
Global Arguments Return {X} x.
Global Arguments Raise {X} e.

Definition M (X : Type) : Type := world → result X * world.

Global Instance M_ret : MRet M := λ X x w, (Return x, w).
Global Instance M_bind : MBind M := λ X Y f m w,
  match m w with
  | (Return x, w') => f x w'
  | (Raise e, w') => (Raise e, w')
  end.

Definition emit (ev : event) (w : world) : world :=
  World (_cache w) (env w) (trace w ++ [ev]).

(** [with _cache_lock: body]; the lock is released however [body] ends. *)
Definition with_cache_lock {X} (body : M X) : M X := λ w,
  let '(r, w') := body (emit Acquire w) in (r, emit Release w').

Definition config_now : M config := λ w, (Return (get_config (env w)), w).
Definition time_now : M Q := λ w, (Return (time_time (env w)), w).

(** [_cache] itself, for [len], iteration and [key in _cache]. *)
Definition cache_read : M (gmap string (Q * V)) := λ w, (Return (_cache w), w).

(** [_cache[key]]. *)
Definition cache_getitem (key : string) : M (Q * V) := λ w,
  match _cache w !! key with
  | Some entry => (Return entry, w)
  | None => (Raise (KeyError key), w)
  end.

(** [_cache[key] = entry]. *)
Definition cache_setitem (key : string) (entry : Q * V) : M unit := λ w,
  (Return (), World (<[key := entry]> (_cache w)) (env w) (trace w)).

(** [del _cache[key]]. *)
Definition cache_delitem (key : string) : M unit := λ w,
  match _cache w !! key with
  | Some _ => (Return (), World (delete key (_cache w)) (env w) (trace w))
  | None => (Raise (KeyError key), w)
  end.

(** [_cache.clear()]. *)
Definition cache_clear : M unit := λ w,
  (Return (), World ∅ (env w) (trace w)).

(** *** Key deriver *)

(** [sorted(kwargs.items())]: the keys of a dict are distinct, so the
    tuples are ordered by their first components alone. *)
Definition sorted_items (kwargs : gmap string A) : list (string * A) :=
  merge_sort (λ x y, String.le x.1 y.1) (map_to_list kwargs).

(** [f"{k}={v}"]. *)
Definition kw_part (kv : string * A) : string :=
  kv.1 +:+ "=" +:+ fmt kv.2.

Definition _make_cache_key
    (prefix : string) (args : list A) (kwargs : gmap string A) : string :=
  let key_parts := [prefix] in
  let key_parts := key_parts ++ (str <$> args) in
  let key_parts := key_parts ++ (kw_part <$> sorted_items kwargs) in
  String.concat ":" key_parts.

(** *** The decorator *)

Section Cached.

(** [key_prefix: str | None], and the decorated [fn] with its [__name__].
    The operation acts on the environment and returns or raises. *)
Variable key_prefix : option string.
Variable fn_name : string.
Variable fn : list A → gmap string A → Env → (E + V) * Env.

(** The call of [fn] on the arguments of the wrapper. *)
Definition call_fn (args : list A) (kwargs : gmap string A) : M V := λ w,
  let '(r, env') := fn args kwargs (env w) in
  (match r with inl e => Raise (OpError e) | inr v => Return v end,
   World (_cache w) env' (trace w ++ [Invoke args kwargs])).

(** [key_prefix or fn.__name__]: [None] and the empty string are falsy. *)
Definition prefix_or_name : string :=
  match key_prefix with
  | Some p => if decide (p = "") then fn_name else p
  | None => fn_name
  end.

(** The first [with _cache_lock] block of [wrapper]: [Some v] stands for
    the [return cached_value] inside it. *)
Definition check_cache (config : config) (cache_key : string) : M (option V) :=
  with_cache_lock (
    cache ← cache_read;
    if decide (is_Some (cache !! cache_key)) then
      '(cached_time, cached_value) ← cache_getitem cache_key;
      now ← time_now;
      if Qltb (now - cached_time) (cache_ttl_seconds config) then
        mret (Some cached_value)
      else
        cache_delitem cache_key;;
        mret None
    else mret None).

Definition wrapper (args : list A) (kwargs : gmap string A) : M V :=
  config ← config_now;
  if negb (enable_response_caching config) then
    call_fn args kwargs
  else
    let prefix := prefix_or_name in
    let cache_key := _make_cache_key prefix args kwargs in
    hit ← check_cache config cache_key;
    match hit with
    | Some cached_value => mret cached_value
    | None =>
        result ← call_fn args kwargs;
        with_cache_lock (
          now ← time_now;
          cache_setitem cache_key (now, result));;
        mret result
    end.

End Cached.

(** *** Maintenance operations *)

Definition clear_cache : M Z :=
  with_cache_lock (
    cache ← cache_read;
    let count := Z.of_nat (size cache) in
    cache_clear;;
    mret count).

(** [for key in keys: del _cache[key]; cleared += 1]. *)
Fixpoint delete_counting (keys : list string) (cleared : Z) : M Z :=
  match keys with
  | [] => mret cleared
  | key :: keys =>
      cache_delitem key;;
      delete_counting keys (cleared + 1)%Z
  end.

Definition clear_expired : M Z :=
  config ← config_now;
  now ← time_now;
  let cleared := 0%Z in
  cleared ← with_cache_lock (
    cache ← cache_read;
    let expired_keys :=
      (filter (λ item, Qgeb (now - item.2.1) (cache_ttl_seconds config) = true)
              (map_to_list cache)).*1 in
    delete_counting expired_keys cleared);
  mret cleared.

Definition cache_stats : M stats :=
  config ← config_now;
  now ← time_now;
  '(total, expired) ← with_cache_lock (
    cache ← cache_read;
    let total := Z.of_nat (size cache) in
    let expired :=
      Z.of_nat (length
        (filter (λ entry, Qgeb (now - entry.1) (cache_ttl_seconds config) = true)
                (map_to_list cache).*2)) in
    mret (total, expired));
  mret (Stats total expired (total - expired)
              (enable_response_caching config) (cache_ttl_seconds config)).

(** [for key in keys: del _cache[key]]. *)
Fixpoint delete_each (keys : list string) : M unit :=
  match keys with
  | [] => mret ()
  | key :: keys => cache_delitem key;; delete_each keys
  end.

Definition invalidate (pattern : string) : M Z :=
  with_cache_lock (
    cache ← cache_read;
    let keys_to_remove :=
      filter (λ key, str_in pattern key = true) (map_to_list cache).*1 in
    delete_each keys_to_remove;;
    mret (Z.of_nat (length keys_to_remove))).

End Cache.

(** ** Running a sequence of calls *)

Section Runs.

Context {A V E Env : Type}.
Variable str : A → string.
Variable fmt : A → string.
Variable get_config : Env → config.
Variable time_time : Env → Q.
Variable key_prefix : option string.
Variable fn_name : string.
Variable fn : list A → gmap string A → Env → (E + V) * Env.

(** The world after calling the decorated operation on each argument list
    in turn; the results are dropped. *)
Fixpoint run_calls (calls : list (list A * gmap string A))
    (w : @world A V Env) : @world A V Env :=
  match calls with
  | [] => w
  | (args, kwargs) :: calls =>
      run_calls calls
        (wrapper str fmt get_config time_time key_prefix fn_name fn args kwargs w).2
  end.

(** Number of invocations of the wrapped operation in a trace. *)
Fixpoint invocations (t : list (@event A)) : nat :=
  match t with
  | [] => 0
  | Invoke _ _ :: t => S (invocations t)
  | _ :: t => invocations t
  end.

End Runs.

(** ** Vocabulary of the statements *)

Section Vocabulary.

Context {V Env : Type}.
Variable get_config : Env → config.
Variable time_time : Env → Q.

(** An item of the store is expired in [e]: its age is at least the TTL,
    the condition of [clear_expired] and [cache_stats]. *)
Definition expired_in (e : Env) (item : string * (Q * V)) : Prop :=
  Qgeb (time_time e - item.2.1) (cache_ttl_seconds (get_config e)) = true.

Global Instance expired_in_dec e item : Decision (expired_in e item).
Proof. unfold expired_in. apply _. Defined.

(** The key of an item contains the pattern, the condition of [invalidate]. *)
Definition matches (pattern : string) (item : string * (Q * V)) : Prop :=
  str_in pattern item.1 = true.

Global Instance matches_dec pattern item : Decision (matches pattern item).
Proof. unfold matches. apply _. Defined.

(** Every key of the store starts with [p]. *)
Definition keys_start_with (p : string) (c : gmap string (Q * V)) : Prop :=
  ∀ k, is_Some (c !! k) → ∃ rest, k = p +:+ rest.

End Vocabulary.

Section KeySafety.

Context {A : Type}.
Variable str : A → string.
Variable fmt : A → string.

(** The inputs on which the parts of a key can be told apart: no part (the
    prefix, the [str] form of a positional argument, a keyword name, the
    [format] form of a keyword value) contains the separator [:], and neither
    a positional part nor a keyword name contains [=]. *)
Definition key_safe (prefix : string) (args : list A)
    (kwargs : gmap string A) : Prop :=
  has_char ":"%char prefix = false ∧
  Forall (λ a, has_char ":"%char (str a) = false ∧ has_char "="%char (str a) = false)
         args ∧
  map_Forall (λ k v, has_char ":"%char k = false ∧ has_char "="%char k = false ∧
                     has_char ":"%char (fmt v) = false) kwargs.

End KeySafety.

(** ** The setting of tests/utils/test_cache.py

    Arguments, results and exceptions are strings ([str] of a string is the
    string itself, and so is its form in an f-string); the environment holds the clock, the patched configuration
    and the [call_count] of the tests. *)

Module TestCache.

Record tenv := TEnv {
  clock : Q;
  mock_config : config;
  call_count : nat
}.

(** [test_func(arg)]: counts the call and returns [f"result-{arg}"]. The
    parameter is bound by the one positional argument or by the keyword
    [arg]; any other shape of call is a [TypeError]. *)
Definition test_func (args : list string) (kwargs : gmap string string)
    (e : tenv) : (string + string) * tenv :=
  let body arg :=
    (inr ("result-" +:+ arg),
     TEnv (clock e) (mock_config e) (S (call_count e))) in
  match args with
  | [arg] => if decide (kwargs = ∅) then body arg else (inl "TypeError", e)
  | [] =>
      match kwargs !! "arg" with
      | Some arg =>
          if decide (kwargs = {["arg" := arg]}) then body arg
          else (inl "TypeError", e)
      | None => (inl "TypeError", e)
      end
  | _ => (inl "TypeError", e)
  end.

(** An operation that takes any arguments and always fails. *)
Definition failing_func (args : list string) (kwargs : gmap string string)
    (e : tenv) : (string + string) * tenv :=
  (inl "ApiException", TEnv (clock e) (mock_config e) (S (call_count e))).

Definition cached_test_func :=
  wrapper (V := string) id id mock_config clock (Some "test") "test_func" test_func.

Definition cached_failing_func :=
  wrapper (V := string) id id mock_config clock (Some "test") "failing_func" failing_func.

(** [time.sleep(d)]. *)
Definition sleep (d : Q) (w : @world string string tenv) : @world string string tenv :=
  World (_cache w)
        (TEnv (clock (env w) + d) (mock_config (env w)) (call_count (env w)))
        (trace w).

(** A world with the given store, clock and configuration. *)
Definition world_of (cache : gmap string (Q * string)) (now : Q) (c : config)
    : @world string string tenv :=
  World cache (TEnv now c 0) [].

End TestCache.

(** ** Lock discipline on traces *)

Section LockDiscipline.

Context {A : Type}.

(** [_cache_lock] is a plain, non-reentrant [threading.Lock]: a trace is in
    order when the lock is only acquired while free, only released while
    held, the wrapped operation is only invoked while it is free, and it is
    free at the end. [held] is the state of the lock before the trace. *)
Fixpoint lock_ok (held : bool) (t : list (@event A)) : bool :=
  match t with
  | [] => negb held
  | Acquire :: t => negb held && lock_ok true t
  | Release :: t => held && lock_ok false t
  | Invoke _ _ :: t => negb held && lock_ok false t
  end.

End LockDiscipline.

(** * Training discovery tools
      (src/rhoai_mcp/domains/training/tools/discovery.py)

    The tools are closures over [server]; the client, the response helpers of
    [rhoai_mcp.utils.response] and the model classes live outside the files
    at hand and are taken as parameters. *)

Module Discovery.

(** The two fields of [server.config] read by [list_training_jobs]. *)
Record list_config := ListConfig {
  max_list_limit : Z;
  default_list_limit : option Z
}.

(** The "Apply config limits" block of [list_training_jobs]. *)
Definition effective_limit (limit : option Z) (config : list_config)
    : option Z :=
  let effective_limit := limit in
  match effective_limit with
  | Some l => Some (Z.min l (max_list_limit config))
  | None =>
      match default_list_limit config with
      | Some d => Some d
      | None => effective_limit
      end
  end.

Section ListTrainingJobs.

(** [Job]: what the client lists, [Verb]: [Verbosity], [Item]: a formatted
    list item, [Val]: the values of the response dict. *)
Context {Job Verb Item Val Env : Type}.

(** [TrainingClient(server.k8s).list_training_jobs(namespace)]. *)
Variable client_list_training_jobs : string → Env → list Job.
(** [server.config]. *)
Variable server_config : Env → list_config.
(** [paginate(items, offset, limit)], returning the page and the total. *)
Variable paginate : list Job → Z → option Z → list Job * Z.
(** [Verbosity.from_str]. *)
Variable Verbosity_from_str : string → Verb.
(** [ResponseBuilder.training_job_list_item]. *)
Variable training_job_list_item : Job → Verb → Item.
(** [PaginatedResponse.build(items, total, offset, limit)]. *)
Variable PaginatedResponse_build :
  list Item → Z → Z → option Z → gmap string Val.
(** A Python string as a value of the response dict. *)
Variable str_value : string → Val.

Definition list_training_jobs (namespace : string) (limit : option Z)
    (offset : Z) (verbosity : string) (e : Env) : gmap string Val :=
  let jobs := client_list_training_jobs namespace e in
  let effective_limit := effective_limit limit (server_config e) in
  let '(paginated, total) := paginate jobs offset effective_limit in
  let v := Verbosity_from_str verbosity in
  let items := (λ job, training_job_list_item job v) <$> paginated in
  let result := PaginatedResponse_build items total offset effective_limit in
  <["namespace" := str_value namespace]> result.

End ListTrainingJobs.

Section ListTrainingRuntimes.

(** [Val]: the values of the attributes of a runtime whose types the tool
    does not look at. *)
Context {Val Env : Type}.

(** The attributes of a runtime the tool reads. *)
Record training_runtime := TrainingRuntime {
  rt_name : Val;
  rt_namespace : option Val;
  rt_framework : Val;
  rt_has_model_initializer : Val;
  rt_has_dataset_initializer : Val
}.

(** An entry of [runtime_list]. *)
Record runtime_item := RuntimeItem {
  item_name : Val;
  item_namespace : option Val;
  item_framework : Val;
  item_has_model_initializer : Val;
  item_has_dataset_initializer : Val;
  item_scope : string
}.

(** The dict the tool returns. *)
Record runtime_listing := RuntimeListing {
  count : Z;
  runtimes : list runtime_item
}.

(** [client.list_cluster_training_runtimes()]. *)
Variable client_list_cluster_training_runtimes : Env → list training_runtime.
(** [client.list_training_runtimes(namespace)]. *)
Variable client_list_training_runtimes :
  string → Env → list training_runtime.

(** The dict built for one runtime. *)
Definition runtime_entry (runtime : training_runtime) : runtime_item :=
  {| item_name := rt_name runtime;
     item_namespace := rt_namespace runtime;
     item_framework := rt_framework runtime;
     item_has_model_initializer := rt_has_model_initializer runtime;
     item_has_dataset_initializer := rt_has_dataset_initializer runtime;
     item_scope :=
       match rt_namespace runtime with
       | None => "cluster"
       | Some _ => "namespace"
       end |}.

(** [namespace: str | None]; [if namespace:] holds for a non-empty string. *)
Definition list_training_runtimes (namespace : option string) (e : Env)
    : runtime_listing :=
  let runtimes := client_list_cluster_training_runtimes e in
  let runtimes :=
    match namespace with
    | Some ns =>
        if decide (ns = "") then runtimes
        else
          let ns_runtimes := client_list_training_runtimes ns e in
          runtimes ++ ns_runtimes
    | None => runtimes
    end in
  let runtime_list := runtime_entry <$> runtimes in
  {| count := Z.of_nat (length runtime_list); runtimes := runtime_list |}.

End ListTrainingRuntimes.

End Discovery.

(** ** Further fixtures in the setting of the tests *)

Module TestExtra.

Import TestCache.

(** A second operation [other_func(arg)] under the same decorator prefix,
    called like [test_func]. *)
Definition other_func (args : list string) (kwargs : gmap string string)
    (e : tenv) : (string + string) * tenv :=
  let body arg :=
    (inr ("other-" +:+ arg),
     TEnv (clock e) (mock_config e) (S (call_count e))) in
  match args with
  | [arg] => if decide (kwargs = ∅) then body arg else (inl "TypeError", e)
  | [] =>
      match kwargs !! "arg" with
      | Some arg =>
          if decide (kwargs = {["arg" := arg]}) then body arg
          else (inl "TypeError", e)
      | None => (inl "TypeError", e)
      end
  | _ => (inl "TypeError", e)
  end.

(** [test_method(self, arg)] of [test_method_caching_per_instance]; the
    instance comes in as the first positional argument, and [arg] by
    position or by keyword. *)
Definition test_method (args : list string) (kwargs : gmap string string)
    (e : tenv) : (string + string) * tenv :=
  let body arg :=
    (inr ("result-" +:+ arg),
     TEnv (clock e) (mock_config e) (S (call_count e))) in
  match args with
  | [self; arg] =>
      if decide (kwargs = ∅) then body arg else (inl "TypeError", e)
  | [self] =>
      match kwargs !! "arg" with
      | Some arg =>
          if decide (kwargs = {["arg" := arg]}) then body arg
          else (inl "TypeError", e)
      | None => (inl "TypeError", e)
      end
  | _ => (inl "TypeError", e)
  end.

(** The patched configuration is replaced. *)
Definition patch_config (c : config) (w : @world string string tenv)
    : @world string string tenv :=
  World (_cache w) (TEnv (clock (env w)) c (call_count (env w))) (trace w).

(** Stand-ins for the collaborators of the discovery tools, for the
    instances at the end of the file only: three jobs in every namespace, a
    page cut by offset and limit, and a response holding the items. *)
Definition jobs_fixture (namespace : string) (e : Discovery.list_config)
    : list string :=
  ["job-a"; "job-b"; "job-c"].

Definition paginate_fixture (items : list string) (offset : Z)
    (limit : option Z) : list string * Z :=
  (match limit with
   | Some l => take (Z.to_nat l) (drop (Z.to_nat offset) items)
   | None => drop (Z.to_nat offset) items
   end,
   Z.of_nat (length items)).

Definition build_fixture (items : list string) (total offset : Z)
    (limit : option Z) : gmap string (list string) :=
  {["items" := items]}.

Definition list_jobs_fixture :=
  Discovery.list_training_jobs jobs_fixture id paginate_fixture id
    (λ job v, job +:+ "/" +:+ v) build_fixture (λ s, [s]).

Definition cluster_runtimes_fixture (e : unit)
    : list (@Discovery.training_runtime string) :=
  [Discovery.TrainingRuntime "torch" None "pytorch" "True" "False"].

Definition namespace_runtimes_fixture (namespace : string) (e : unit)
    : list (@Discovery.training_runtime string) :=
  [Discovery.TrainingRuntime "custom" (Some namespace) "pytorch" "False" "False"].

End TestExtra.

(** * Properties *)

(** ** Comparisons *)

Lemma Qltb_iff (x y : Q) : Qltb x y = true ↔ (x < y)%Q.
Proof. unfold Qltb, Qlt. apply Z.ltb_lt. Qed.

Lemma Qgeb_iff (x y : Q) : Qgeb x y = true ↔ (y <= x)%Q.
Proof. unfold Qgeb. apply Qle_bool_iff. Qed.

(** The expiry test of [clear_expired] and [cache_stats] is the negation
    of the validity test of the wrapper. *)
Lemma Qgeb_negb_Qltb (x y : Q) : Qgeb x y = negb (Qltb x y).
Proof. unfold Qgeb, Qle_bool, Qltb. apply Z.leb_antisym. Qed.

(** ** Strings *)

Lemma app_String (a : Ascii.ascii) (s r : string) :
  String a s +:+ r = String a (s +:+ r).
Proof. reflexivity. Qed.

Lemma app_empty_l (s : string) : "" +:+ s = s.
Proof. reflexivity. Qed.

Lemma app_empty_r (s : string) : s +:+ "" = s.
Proof. induction s as [|a s IH]; [done|]. by rewrite app_String, IH. Qed.

Lemma prefix_iff (p k : string) :
  String.prefix p k = true ↔ ∃ r, k = p +:+ r.
Proof.
  revert p. induction k as [|b k IH]; intros [|a p]; simpl.
  - split; [by exists ""|done].
  - split; [done|]. intros [r Hr]. by rewrite app_String in Hr.
  - split; [by eexists|done].
  - destruct (Ascii.ascii_dec a b) as [->|Hab].
    + rewrite IH. split; intros [r Hr]; exists r.
      * by rewrite app_String, <-Hr.
      * rewrite app_String in Hr. by simplify_eq.
    + split; [done|]. intros [r Hr]. rewrite app_String in Hr. by simplify_eq.
Qed.

Lemma str_in_nil (pattern : string) :
  str_in pattern "" = String.prefix pattern "" || false.
Proof. reflexivity. Qed.

Lemma str_in_cons (pattern : string) (b : Ascii.ascii) (key : string) :
  str_in pattern (String b key) =
  String.prefix pattern (String b key) || str_in pattern key.
Proof. reflexivity. Qed.

(** [str_in] is the plain substring test. *)
Lemma str_in_iff (pattern key : string) :
  str_in pattern key = true ↔ ∃ l r, key = l +:+ pattern +:+ r.
Proof.
  induction key as [|b key IH]; [rewrite str_in_nil|rewrite str_in_cons].
  - rewrite orb_false_r, prefix_iff. split.
    + intros [r Hr]. by exists "", r.
    + intros [l [r Hr]]. destruct l; [by exists r|by rewrite app_String in Hr].
  - rewrite orb_true_iff, prefix_iff, IH. split.
    + intros [[r Hr]|[l [r Hr]]].
      * by exists "", r.
      * exists (String b l), r. by rewrite app_String, <-Hr.
    + intros [[|a l] [r Hr]].
      * left. by exists r.
      * right. rewrite app_String in Hr. simplify_eq. by exists l, r.
Qed.

Lemma str_in_empty (key : string) : str_in "" key = true.
Proof. apply str_in_iff. by exists "", key. Qed.

Lemma str_in_prefix (p r : string) : str_in p (p +:+ r) = true.
Proof. apply str_in_iff. by exists "", r. Qed.

(** ** Traces *)

Lemma invocations_app {A} (t1 t2 : list (@event A)) :
  invocations (t1 ++ t2) = invocations t1 + invocations t2.
Proof.
  induction t1 as [|[| |args kwargs] t1 IH]; simpl; [done|done|done|].
  by rewrite IH.
Qed.

(** ** The decorator, case by case *)

Section Wrapper.

Context {A V E Env : Type}.
Variable str : A → string.
Variable fmt : A → string.
Variable get_config : Env → config.
Variable time_time : Env → Q.
Variable key_prefix : option string.
Variable fn_name : string.
Variable fn : list A → gmap string A → Env → (E + V) * Env.

Abbreviation world := (@world A V Env).
Abbreviation wrapper' := (wrapper str fmt get_config time_time key_prefix fn_name fn).
Abbreviation check_cache' := (check_cache (A := A) (E := E) time_time).
Abbreviation key_of args kwargs :=
  (_make_cache_key str fmt (prefix_or_name key_prefix fn_name) args kwargs).

Lemma check_cache_eq (config : config) (key : string) (w : world) :
  check_cache' config key w =
  match _cache w !! key with
  | Some (t, v) =>
      if Qltb (time_time (env w) - t) (cache_ttl_seconds config) then
        (Return (Some v),
         World (_cache w) (env w) (trace w ++ [Acquire; Release]))
      else
        (Return None,
         World (delete key (_cache w)) (env w) (trace w ++ [Acquire; Release]))
  | None =>
      (Return None, World (_cache w) (env w) (trace w ++ [Acquire; Release]))
  end.
Proof.
  unfold check_cache, with_cache_lock, cache_read,
    cache_getitem, cache_delitem, time_now, emit, mbind, mret, M_bind, M_ret.
  simpl. destruct (_cache w !! key) as [[t v]|] eqn:Hk.
  - rewrite decide_True by eauto. simpl. rewrite Hk. simpl.
    destruct (Qltb _ _); simpl; [|rewrite Hk; simpl];
      by rewrite <-app_assoc.
  - rewrite decide_False by (by intros [? ?]). simpl. by rewrite <-app_assoc.
Qed.

(** Caching disabled: the wrapper' is the call of [fn]. *)
Lemma wrapper_disabled (args : list A) (kwargs : gmap string A) (w : world) :
  enable_response_caching (get_config (env w)) = false →
  wrapper' args kwargs w = call_fn fn args kwargs w.
Proof.
  intros Hoff.
  unfold wrapper, config_now, mbind, M_bind. simpl.
  by rewrite Hoff.
Qed.

(** Caching enabled, a valid entry under the key: the stored value is
    returned and [fn] is not called. *)
Lemma wrapper_hit (args : list A) (kwargs : gmap string A) (w : world)
    (t : Q) (v : V) :
  enable_response_caching (get_config (env w)) = true →
  _cache w !! key_of args kwargs = Some (t, v) →
  Qltb (time_time (env w) - t) (cache_ttl_seconds (get_config (env w))) = true →
  wrapper' args kwargs w =
  (Return v, World (_cache w) (env w) (trace w ++ [Acquire; Release])).
Proof.
  intros Hon Hk Hfresh.
  unfold wrapper, config_now, mbind, M_bind at 1 2. simpl.
  rewrite Hon. simpl. by rewrite check_cache_eq, Hk, Hfresh.
Qed.

(** Caching enabled, no valid entry under the key: a stale entry is
    deleted, [fn] is called, and its result, if any, is stored with the
    time read after the call. *)
Lemma wrapper_miss (args : list A) (kwargs : gmap string A) (w : world) :
  enable_response_caching (get_config (env w)) = true →
  (∀ t v, _cache w !! key_of args kwargs = Some (t, v) →
     Qltb (time_time (env w) - t) (cache_ttl_seconds (get_config (env w))) = false) →
  wrapper' args kwargs w =
  match fn args kwargs (env w) with
  | (inl e, env') =>
      (Raise (OpError e),
       World (delete (key_of args kwargs) (_cache w)) env'
             (trace w ++ [Acquire; Release; Invoke args kwargs]))
  | (inr v, env') =>
      (Return v,
       World (<[key_of args kwargs := (time_time env', v)]> (_cache w)) env'
             (trace w ++ [Acquire; Release; Invoke args kwargs; Acquire; Release]))
  end.
Proof.
  intros Hon Hstale.
  unfold wrapper, config_now, mbind, M_bind at 1 2. simpl.
  rewrite Hon. simpl. rewrite check_cache_eq.
  unfold call_fn, with_cache_lock, time_now, cache_setitem, emit,
    mbind, mret, M_bind, M_ret.
  destruct (_cache w !! _) as [[t v]|] eqn:Hk; simpl.
  - rewrite (Hstale t v eq_refl). simpl.
    destruct (fn args kwargs (env w)) as [[e|r] env']; simpl.
    + by rewrite <-app_assoc.
    + rewrite insert_delete_eq. by rewrite <-!app_assoc.
  - destruct (fn args kwargs (env w)) as [[e|r] env']; simpl.
    + rewrite delete_id by done. by rewrite <-app_assoc.
    + by rewrite <-!app_assoc.
Qed.

End Wrapper.

(** ** Deleting a list of keys *)

Section Deletion.

Context {A V E Env : Type}.

Abbreviation world := (@world A V Env).

Lemma filter_fmap_list {X Y} (f : X → Y) (P : Y → Prop)
    `{!∀ y, Decision (P y)} (l : list X) :
  filter P (f <$> l) = f <$> filter (λ x, P (f x)) l.
Proof.
  induction l as [|x l IH]; [done|]. rewrite fmap_cons, !filter_cons.
  destruct (decide (P (f x))); by rewrite IH.
Qed.

Lemma foldr_delete_delete (c : gmap string (Q * V)) (k : string)
    (ks : list string) :
  foldr delete (delete k c) ks = delete k (foldr delete c ks).
Proof. induction ks as [|j ks IH]; simpl; [done|]. by rewrite IH, delete_delete. Qed.

(** The keys of the items selected by [P]: distinct, all present, and
    deleting them leaves the items not selected. *)
Lemma selected_keys_NoDup (P : string * (Q * V) → Prop)
    `{!∀ kv, Decision (P kv)} (c : gmap string (Q * V)) :
  NoDup (filter P (map_to_list c)).*1.
Proof.
  apply (sublist_NoDup _ (map_to_list c).*1); [apply NoDup_fst_map_to_list|].
  apply fmap_sublist, sublist_filter.
Qed.

Lemma selected_keys_elem (P : string * (Q * V) → Prop)
    `{!∀ kv, Decision (P kv)} (c : gmap string (Q * V)) (k : string) :
  k ∈ (filter P (map_to_list c)).*1 ↔ ∃ e, c !! k = Some e ∧ P (k, e).
Proof.
  rewrite list_elem_of_fmap. split.
  - intros [[k' e] [-> [HP Hin]%list_elem_of_filter]].
    apply elem_of_map_to_list in Hin. by exists e.
  - intros [e [Hk HP]]. exists (k, e). split; [done|].
    apply list_elem_of_filter. split; [done|]. by apply elem_of_map_to_list.
Qed.

Lemma foldr_delete_selected (P : string * (Q * V) → Prop)
    `{!∀ kv, Decision (P kv)} (c : gmap string (Q * V)) :
  foldr delete c (filter P (map_to_list c)).*1 = filter (λ kv, ¬ P kv) c.
Proof.
  apply map_eq. intros k. apply option_eq. intros e.
  rewrite lookup_foldr_delete_Some, selected_keys_elem, map_lookup_filter_Some.
  split.
  - intros [Hnot Hk]. split; [done|]. intros HP. apply Hnot. by exists e.
  - intros [Hk HP]. split; [|done]. intros [e' [Hk' HP']]. by simplify_eq.
Qed.

Lemma selected_keys_length (P : string * (Q * V) → Prop)
    `{!∀ kv, Decision (P kv)} (c : gmap string (Q * V)) :
  length (filter P (map_to_list c)).*1 = size (filter P c).
Proof.
  rewrite length_fmap, map_filter_alt, map_size_list_to_map; [done|].
  apply selected_keys_NoDup.
Qed.

(** The loop of [invalidate] raises no [KeyError] on distinct, present keys. *)
Lemma delete_each_eq (keys : list string) (w : world) :
  NoDup keys →
  (∀ k, k ∈ keys → is_Some (_cache w !! k)) →
  delete_each (A := A) (E := E) keys w =
  (Return (), World (foldr delete (_cache w) keys) (env w) (trace w)).
Proof.
  revert w. induction keys as [|k keys IH]; intros w Hnd Hin; simpl.
  - by destruct w.
  - apply NoDup_cons in Hnd as [Hk Hnd].
    unfold mbind, M_bind, cache_delitem.
    destruct (Hin k) as [e ->]; [by left|].
    rewrite IH; simpl; [by rewrite foldr_delete_delete|done|].
    intros k' Hk'. rewrite lookup_delete_ne by (by intros ->).
    apply Hin. by right.
Qed.

(** The loop of [clear_expired] likewise, and it counts the keys. *)
Lemma delete_counting_eq (keys : list string) (cleared : Z) (w : world) :
  NoDup keys →
  (∀ k, k ∈ keys → is_Some (_cache w !! k)) →
  delete_counting (A := A) (E := E) keys cleared w =
  (Return (cleared + Z.of_nat (length keys))%Z,
   World (foldr delete (_cache w) keys) (env w) (trace w)).
Proof.
  revert w cleared. induction keys as [|k keys IH]; intros w n Hnd Hin; simpl.
  - rewrite Z.add_0_r. by destruct w.
  - apply NoDup_cons in Hnd as [Hk Hnd].
    unfold mbind, M_bind, cache_delitem.
    destruct (Hin k) as [e ->]; [by left|].
    rewrite IH; simpl.
    + rewrite foldr_delete_delete. do 2 f_equal. lia.
    + done.
    + intros k' Hk'. rewrite lookup_delete_ne by (by intros ->).
      apply Hin. by right.
Qed.

End Deletion.

(** ** The maintenance operations in closed form *)

Section Maintenance.

Context {A V E Env : Type}.
Variable get_config : Env → config.
Variable time_time : Env → Q.

Abbreviation world := (@world A V Env).
Abbreviation clear_cache' := (clear_cache (A := A) (V := V) (E := E) (Env := Env)).
Abbreviation clear_expired' := (clear_expired (A := A) (V := V) (E := E) get_config time_time).
Abbreviation cache_stats' := (cache_stats (A := A) (V := V) (E := E) get_config time_time).
Abbreviation invalidate' := (invalidate (A := A) (V := V) (E := E) (Env := Env)).

Lemma clear_cache_eq (w : world) :
  clear_cache' w =
  (Return (Z.of_nat (size (_cache w))),
   World ∅ (env w) (trace w ++ [Acquire; Release])).
Proof.
  unfold clear_cache, with_cache_lock, cache_read,
    cache_clear, emit, mbind, mret, M_bind, M_ret. simpl.
  by rewrite <-app_assoc.
Qed.

Lemma clear_expired_eq (w : world) :
  clear_expired' w =
  (Return (Z.of_nat (size (filter (expired_in get_config time_time (env w)) (_cache w)))),
   World (filter (λ item, ¬ expired_in get_config time_time (env w) item) (_cache w)) (env w)
         (trace w ++ [Acquire; Release])).
Proof.
  unfold clear_expired, with_cache_lock, cache_read,
    config_now, time_now, emit, mbind, mret, M_bind, M_ret. simpl.
  set (P := λ item : string * (Q * V),
    Qgeb (time_time (env w) - item.2.1)
         (cache_ttl_seconds (get_config (env w))) = true).
  rewrite delete_counting_eq; simpl.
  - rewrite <-app_assoc. simpl.
    by rewrite (foldr_delete_selected P), (selected_keys_length P).
  - apply (selected_keys_NoDup P).
  - intros k [e [Hk _]]%(selected_keys_elem P). eauto.
Qed.

Lemma cache_stats_eq (w : world) :
  cache_stats' w =
  (Return (Stats (Z.of_nat (size (_cache w)))
                 (Z.of_nat (size (filter (expired_in get_config time_time (env w)) (_cache w))))
                 (Z.of_nat (size (_cache w)) -
                  Z.of_nat (size (filter (expired_in get_config time_time (env w)) (_cache w))))
                 (enable_response_caching (get_config (env w)))
                 (cache_ttl_seconds (get_config (env w)))),
   World (_cache w) (env w) (trace w ++ [Acquire; Release])).
Proof.
  unfold cache_stats, with_cache_lock, cache_read,
    config_now, time_now, emit, mbind, mret, M_bind, M_ret. simpl.
  set (P := λ item : string * (Q * V),
    Qgeb (time_time (env w) - item.2.1)
         (cache_ttl_seconds (get_config (env w))) = true).
  rewrite <-app_assoc. simpl.
  rewrite (filter_fmap_list snd), length_fmap.
  rewrite <-(length_fmap fst), (selected_keys_length P).
  done.
Qed.

Lemma invalidate_eq (pattern : string) (w : world) :
  invalidate' pattern w =
  (Return (Z.of_nat (size (filter (matches (V := V) pattern) (_cache w)))),
   World (filter (λ item, ¬ matches (V := V) pattern item) (_cache w)) (env w)
         (trace w ++ [Acquire; Release])).
Proof.
  unfold invalidate, with_cache_lock, cache_read,
    emit, mbind, mret, M_bind at 1 2, M_ret. simpl.
  set (P := λ item : string * (Q * V), str_in pattern item.1 = true).
  rewrite (filter_fmap_list fst).
  rewrite delete_each_eq; simpl.
  - rewrite <-app_assoc. simpl.
    by rewrite (foldr_delete_selected P), (selected_keys_length P).
  - apply (selected_keys_NoDup P).
  - intros k [e [Hk _]]%(selected_keys_elem P). eauto.
Qed.

(** The items selected and the items left partition the store. *)
Lemma size_filter_complement (P : string * (Q * V) → Prop)
    `{!∀ kv, Decision (P kv)} (c : gmap string (Q * V)) :
  size (filter P c) + size (filter (λ kv, ¬ P kv) c) = size c.
Proof.
  rewrite <-map_size_disj_union by apply map_disjoint_filter_complement.
  by rewrite map_filter_union_complement.
Qed.

(** A store of two items, one selected by [P] and one not. *)
Lemma filter_pair (P : string * (Q * V) → Prop)
    `{!∀ kv, Decision (P kv)} (k1 k2 : string) (e1 e2 : Q * V) :
  k1 ≠ k2 → P (k1, e1) → ¬ P (k2, e2) →
  filter P (<[k1 := e1]> {[k2 := e2]} : gmap string (Q * V)) = {[k1 := e1]} ∧
  filter (λ kv, ¬ P kv) (<[k1 := e1]> {[k2 := e2]} : gmap string (Q * V))
    = {[k2 := e2]}.
Proof.
  intros Hne H1 H2. split.
  - rewrite map_filter_insert_True, map_filter_singleton_False by done.
    by rewrite insert_empty.
  - rewrite map_filter_insert_False by (by intros Hn; apply Hn).
    rewrite delete_singleton_ne by done.
    by rewrite map_filter_singleton_True.
Qed.

(** A store of three items, two selected by [P] and one not. *)
Lemma filter_triple (P : string * (Q * V) → Prop)
    `{!∀ kv, Decision (P kv)} (k1 k2 k3 : string) (e1 e2 e3 : Q * V) :
  k1 ≠ k2 → k1 ≠ k3 → k2 ≠ k3 →
  P (k1, e1) → P (k2, e2) → ¬ P (k3, e3) →
  size (filter P (<[k1 := e1]> (<[k2 := e2]> {[k3 := e3]})
                  : gmap string (Q * V))) = 2 ∧
  filter (λ kv, ¬ P kv) (<[k1 := e1]> (<[k2 := e2]> {[k3 := e3]})
                         : gmap string (Q * V))
    = {[k3 := e3]}.
Proof.
  intros H12 H13 H23 H1 H2 H3. split.
  - rewrite !map_filter_insert_True, map_filter_singleton_False by done.
    rewrite map_size_insert_None.
    + by rewrite map_size_insert_None, map_size_empty.
    + by rewrite lookup_insert_ne, lookup_empty.
  - rewrite map_filter_insert_False by (by intros Hn; apply Hn).
    rewrite delete_insert_ne, delete_singleton_ne by done.
    rewrite map_filter_insert_False by (by intros Hn; apply Hn).
    rewrite delete_singleton_ne by done.
    by rewrite map_filter_singleton_True.
Qed.

End Maintenance.

(** ** Maintenance operations: the claims *)

Section MaintenanceClaims.

Context {A V E Env : Type}.
Variable get_config : Env → config.
Variable time_time : Env → Q.

Abbreviation world := (@world A V Env).
Abbreviation clear_cache' := (clear_cache (A := A) (V := V) (E := E) (Env := Env)).
Abbreviation clear_expired' := (clear_expired (A := A) (V := V) (E := E) get_config time_time).
Abbreviation cache_stats' := (cache_stats (A := A) (V := V) (E := E) get_config time_time).
Abbreviation invalidate' := (invalidate (A := A) (V := V) (E := E) (Env := Env)).
Abbreviation expired_in' := (expired_in (V := V) get_config time_time).

Lemma expired_in_iff (e : Env) (k : string) (t : Q) (v : V) :
  expired_in' e (k, (t, v)) ↔
  (cache_ttl_seconds (get_config e) <= time_time e - t)%Q.
Proof. unfold expired_in. simpl. apply Qgeb_iff. Qed.

Lemma not_expired_in_iff (e : Env) (k : string) (t : Q) (v : V) :
  ¬ expired_in' e (k, (t, v)) ↔
  (time_time e - t < cache_ttl_seconds (get_config e))%Q.
Proof.
  rewrite expired_in_iff. split; [apply Qnot_le_lt|apply Qlt_not_le].
Qed.

(** C6. [clear_expired] removes exactly the entries whose age, at the time of
    the call, is at least the TTL of the current configuration: such an
    entry is gone afterwards, a fresher entry is still there unchanged, no key
    appears, and the result is the number of entries removed. With one stale
    and one fresh entry in the store, the stale one alone is removed and the
    result is 1. *)
Theorem clear_expired_removes_expired (w : world) :
  let now := time_time (env w) in
  let ttl := cache_ttl_seconds (get_config (env w)) in
  let r := clear_expired' w in
  (∀ k t v, _cache w !! k = Some (t, v) → (ttl <= now - t)%Q →
     _cache r.2 !! k = None) ∧
  (∀ k t v, _cache w !! k = Some (t, v) → (now - t < ttl)%Q →
     _cache r.2 !! k = Some (t, v)) ∧
  (∀ k, _cache w !! k = None → _cache r.2 !! k = None) ∧
  r.1 = Return (Z.of_nat (size (filter (expired_in' (env w)) (_cache w)))) ∧
  r.1 = Return (Z.of_nat (size (_cache w)) - Z.of_nat (size (_cache r.2)))%Z ∧
  env r.2 = env w ∧
  (∀ k1 k2 e1 e2,
     k1 ≠ k2 → _cache w = <[k1 := e1]> {[k2 := e2]} →
     (ttl <= now - e1.1)%Q → (now - e2.1 < ttl)%Q →
     r.1 = Return 1%Z ∧ _cache r.2 = {[k2 := e2]}).
Proof.
  intros now ttl r. subst r. rewrite clear_expired_eq. simpl.
  assert (Hstale : ∀ k t v, _cache w !! k = Some (t, v) → (ttl <= now - t)%Q →
    filter (λ item, ¬ expired_in' (env w) item) (_cache w) !! k = None).
  { intros k t v Hk Hage. apply map_lookup_filter_None. right.
    intros [t' v'] Hk' Hnot. simplify_eq.
    by apply Hnot, expired_in_iff. }
  assert (Hfresh : ∀ k t v, _cache w !! k = Some (t, v) → (now - t < ttl)%Q →
    filter (λ item, ¬ expired_in' (env w) item) (_cache w) !! k = Some (t, v)).
  { intros k t v Hk Hage. apply map_lookup_filter_Some. split; [done|].
    by apply not_expired_in_iff. }
  assert (Hsize : Z.of_nat (size (filter (expired_in' (env w)) (_cache w))) =
    (Z.of_nat (size (_cache w)) -
     Z.of_nat (size (filter (λ item, ¬ expired_in' (env w) item) (_cache w))))%Z).
  { pose proof (size_filter_complement (expired_in' (env w)) (_cache w)). lia. }
  split_and!; try done.
  - intros k Hk. apply map_lookup_filter_None. by left.
  - by rewrite Hsize.
  - intros k1 k2 [t1 v1] [t2 v2] Hne Hc Hold Hnew. simpl in *.
    destruct (filter_pair (expired_in' (env w)) k1 k2 (t1, v1) (t2, v2))
      as [Hgone Hleft]; [done|by apply expired_in_iff|by apply not_expired_in_iff|].
    by rewrite Hc, Hgone, Hleft, map_size_singleton.
Qed.

Lemma matches_iff (pattern k : string) (e : Q * V) :
  matches pattern (k, e) ↔ ∃ l s, k = l +:+ pattern +:+ s.
Proof. unfold matches. simpl. apply str_in_iff. Qed.

(** C7. [invalidate pattern] removes exactly the entries whose key has the
    pattern as a plain substring, returns how many it removed and raises
    nothing, whatever the pattern; when no key matches, the store is unchanged
    and the result is 0; with the keys workbenches:ns1, workbenches:ns2 and
    projects:all, invalidating workbenches removes the first two and
    returns 2. *)
Theorem invalidate_removes_matching (pattern : string) (w : world) :
  let r := invalidate' pattern w in
  (∀ k, (∃ l s, k = l +:+ pattern +:+ s) → _cache r.2 !! k = None) ∧
  (∀ k, ¬ (∃ l s, k = l +:+ pattern +:+ s) → _cache r.2 !! k = _cache w !! k) ∧
  r.1 = Return (Z.of_nat (size (filter (matches pattern) (_cache w)))) ∧
  r.1 = Return (Z.of_nat (size (_cache w)) - Z.of_nat (size (_cache r.2)))%Z ∧
  env r.2 = env w ∧
  ((∀ k, is_Some (_cache w !! k) → ¬ ∃ l s, k = l +:+ pattern +:+ s) →
     r.1 = Return 0%Z ∧ _cache r.2 = _cache w) ∧
  (pattern = "workbenches" →
   ∀ e1 e2 e3,
     _cache w = <["workbenches:ns1" := e1]>
                  (<["workbenches:ns2" := e2]> {["projects:all" := e3]}) →
     r.1 = Return 2%Z ∧ _cache r.2 = {["projects:all" := e3]}).
Proof.
  intros r. subst r. rewrite invalidate_eq. simpl.
  assert (Hsize : Z.of_nat (size (filter (matches pattern) (_cache w))) =
    (Z.of_nat (size (_cache w)) -
     Z.of_nat (size (filter (λ item, ¬ matches pattern item) (_cache w))))%Z).
  { pose proof (size_filter_complement (matches pattern) (_cache w)). lia. }
  split_and!; try done.
  - intros k Hk. apply map_lookup_filter_None. right.
    intros e _ Hnot. by apply Hnot, matches_iff.
  - intros k Hk. apply option_eq. intros e.
    rewrite map_lookup_filter_Some, matches_iff.
    split; [by intros [He _]|by intros He].
  - by rewrite Hsize.
  - intros Hnone.
    assert (Hid : filter (λ item, ¬ matches pattern item) (_cache w) = _cache w).
    { apply map_filter_id. intros k e Hk. rewrite matches_iff. eauto. }
    split; [|done]. rewrite Hsize, Hid. f_equal. lia.
  - intros -> e1 e2 e3 Hc. rewrite Hc.
    destruct (filter_triple (matches "workbenches")
                "workbenches:ns1" "workbenches:ns2" "projects:all" e1 e2 e3)
      as [Hgone Hleft];
      [apply String.eqb_neq; reflexivity ..
      |reflexivity|reflexivity|intros Hm; discriminate Hm|].
    split; [|exact Hleft].
    exact (f_equal (λ n, Return (Z.of_nat n)) Hgone).
Qed.

(** C8. [cache_stats] reports the number of entries, the number of entries
    expired under the current TTL (age at least the TTL), the number of
    active entries as their difference, the enable flag and the TTL; it
    leaves the store as it was, so that a [clear_expired] run right after it
    still finds and removes every stale entry. With one fresh and one stale
    entry it reports total 2, expired 1, active 1. *)
Theorem cache_stats_read_only (w : world) :
  let r := cache_stats' w in
  let total := Z.of_nat (size (_cache w)) in
  let expired := Z.of_nat (size (filter (expired_in' (env w)) (_cache w))) in
  let active :=
    Z.of_nat (size (filter (λ item, ¬ expired_in' (env w) item) (_cache w))) in
  r.1 = Return (Stats total expired (total - expired)
                      (enable_response_caching (get_config (env w)))
                      (cache_ttl_seconds (get_config (env w)))) ∧
  (total - expired)%Z = active ∧
  _cache r.2 = _cache w ∧
  env r.2 = env w ∧
  (clear_expired' r.2).1 = Return expired ∧
  _cache (clear_expired' r.2).2 =
    filter (λ item, ¬ expired_in' (env w) item) (_cache w) ∧
  (∀ k1 k2 e1 e2,
     k1 ≠ k2 → _cache w = <[k1 := e1]> {[k2 := e2]} →
     (cache_ttl_seconds (get_config (env w)) <= time_time (env w) - e1.1)%Q →
     (time_time (env w) - e2.1 < cache_ttl_seconds (get_config (env w)))%Q →
     total = 2%Z ∧ expired = 1%Z ∧ (total - expired)%Z = 1%Z ∧
     _cache r.2 !! k1 = Some e1 ∧
     (clear_expired' r.2).1 = Return 1%Z ∧
     _cache (clear_expired' r.2).2 = {[k2 := e2]}).
Proof.
  intros r total expired active. subst r total expired active.
  rewrite cache_stats_eq, clear_expired_eq. simpl.
  split_and!; try done.
  - pose proof (size_filter_complement (expired_in' (env w)) (_cache w)). lia.
  - intros k1 k2 [t1 v1] [t2 v2] Hne Hc Hold Hnew. simpl in *.
    destruct (filter_pair (expired_in' (env w)) k1 k2 (t1, v1) (t2, v2))
      as [Hgone Hleft]; [done|by apply expired_in_iff|by apply not_expired_in_iff|].
    rewrite Hc, Hgone, Hleft, map_size_singleton, lookup_insert_eq.
    rewrite map_size_insert_None by (by rewrite lookup_singleton_ne).
    by rewrite map_size_singleton.
Qed.

(** C10. The empty pattern occurs in every key: [invalidate] of the empty
    string empties the store and returns its previous size, exactly as
    [clear_cache] does. *)
Theorem invalidate_empty_clears_all (w : world) :
  invalidate' "" w = clear_cache' w ∧
  (invalidate' "" w).1 = Return (Z.of_nat (size (_cache w))) ∧
  _cache (invalidate' "" w).2 = ∅ ∧
  (∀ k, str_in "" k = true).
Proof.
  assert (Hall : filter (matches (V := V) "") (_cache w) = _cache w).
  { apply map_filter_id. intros k e _. apply str_in_empty. }
  assert (Hnone : filter (λ item, ¬ matches (V := V) "" item) (_cache w) = ∅).
  { apply map_empty. intros k. apply map_lookup_filter_None. right.
    intros e _ Hnot. apply Hnot, str_in_empty. }
  rewrite invalidate_eq, clear_cache_eq, Hall, Hnone. simpl.
  split_and!; try done. apply str_in_empty.
Qed.

End MaintenanceClaims.

(** ** Separators in strings *)

Lemma has_char_app (c : Ascii.ascii) (s1 s2 : string) :
  has_char c (s1 +:+ s2) = has_char c s1 || has_char c s2.
Proof.
  induction s1 as [|a s1 IH]; [done|]. rewrite app_String. simpl.
  by destruct (decide (a = c)).
Qed.

(** Two strings free of [c], each followed by [c], are cut at the same place. *)
Lemma app_sep_inj (c : Ascii.ascii) (x y r1 r2 : string) :
  has_char c x = false → has_char c y = false →
  x +:+ String c r1 = y +:+ String c r2 → x = y ∧ r1 = r2.
Proof.
  revert y. induction x as [|a x IH]; intros [|b y] Hx Hy Heq.
  - rewrite !app_empty_l in Heq. by simplify_eq.
  - rewrite app_empty_l, app_String in Heq. simplify_eq.
    simpl in Hy. by rewrite decide_True in Hy.
  - rewrite app_empty_l, app_String in Heq. simplify_eq.
    simpl in Hx. by rewrite decide_True in Hx.
  - rewrite !app_String in Heq. simplify_eq. simpl in Hx, Hy.
    destruct (decide (b = c)); [done|].
    destruct (IH y Hx Hy) as [-> ->]; done.
Qed.

Lemma concat_cons (sep x : string) (l : list string) :
  String.concat sep (x :: l) =
  match l with
  | [] => x
  | _ :: _ => x +:+ sep +:+ String.concat sep l
  end.
Proof. by destruct l. Qed.

(** Joining with [:] loses nothing when no part contains [:]. *)
Lemma concat_colon_inj (l1 l2 : list string) :
  l1 ≠ [] → l2 ≠ [] →
  Forall (λ s, has_char ":"%char s = false) l1 →
  Forall (λ s, has_char ":"%char s = false) l2 →
  String.concat ":" l1 = String.concat ":" l2 → l1 = l2.
Proof.
  revert l2. induction l1 as [|x l1 IH]; intros [|y l2] H1 H2 Hf1 Hf2 Heq;
    try done.
  apply Forall_cons in Hf1 as [Hx Hf1]. apply Forall_cons in Hf2 as [Hy Hf2].
  rewrite !concat_cons in Heq.
  destruct l1 as [|x' l1], l2 as [|y' l2].
  - by subst.
  - subst x. rewrite has_char_app in Hx.
    apply orb_false_iff in Hx as [_ Hx]. discriminate Hx.
  - subst y. rewrite has_char_app in Hy.
    apply orb_false_iff in Hy as [_ Hy]. discriminate Hy.
  - apply (app_sep_inj ":"%char x y) in Heq as [-> Heq]; [|done..].
    f_equal. by apply IH.
Qed.

(** Two lists that agree after concatenation, whose fronts satisfy [P] and
    whose backs do not, agree part by part. *)
Lemma app_inj_pred {X} (P : X → Prop) (l1 l2 r1 r2 : list X) :
  Forall P l1 → Forall P l2 →
  Forall (λ x, ¬ P x) r1 → Forall (λ x, ¬ P x) r2 →
  l1 ++ r1 = l2 ++ r2 → l1 = l2 ∧ r1 = r2.
Proof.
  revert l2. induction l1 as [|x l1 IH]; intros [|y l2] Hl1 Hl2 Hr1 Hr2 Heq.
  - done.
  - simpl in Heq. subst r1. apply Forall_cons in Hr1 as [Hy _].
    apply Forall_cons in Hl2 as [Hy' _]. done.
  - simpl in Heq. subst r2. apply Forall_cons in Hr2 as [Hx _].
    apply Forall_cons in Hl1 as [Hx' _]. done.
  - simpl in Heq. simplify_eq.
    apply Forall_cons in Hl1 as [_ Hl1]. apply Forall_cons in Hl2 as [_ Hl2].
    destruct (IH l2 Hl1 Hl2 Hr1 Hr2) as [-> ->]; done.
Qed.

(** ** The key deriver: when keys tell calls apart *)

Section KeyInjectivity.

Context {A : Type}.
Variable str : A → string.
Variable fmt : A → string.

Abbreviation kw_part' := (kw_part fmt).
Abbreviation key_safe' := (key_safe str fmt).

Lemma kw_part_has_eq (kv : string * A) :
  has_char "="%char (kw_part' kv) = true.
Proof.
  unfold kw_part. rewrite has_char_app.
  change ("=" +:+ fmt kv.2) with (String "="%char (fmt kv.2)).
  simpl. apply orb_true_r.
Qed.

Lemma kw_part_colon_free (kv : string * A) :
  has_char ":"%char kv.1 = false → has_char ":"%char (fmt kv.2) = false →
  has_char ":"%char (kw_part' kv) = false.
Proof.
  intros Hk Hv. unfold kw_part. rewrite has_char_app, Hk.
  change ("=" +:+ fmt kv.2) with (String "="%char (fmt kv.2)).
  simpl. exact Hv.
Qed.

Lemma kw_part_inj (kv1 kv2 : string * A) :
  has_char "="%char kv1.1 = false → has_char "="%char kv2.1 = false →
  kw_part' kv1 = kw_part' kv2 →
  prod_map id fmt kv1 = prod_map id fmt kv2.
Proof.
  destruct kv1 as [k1 v1], kv2 as [k2 v2]. unfold kw_part. simpl.
  intros H1 H2 Heq.
  change ("=" +:+ fmt v1) with (String "="%char (fmt v1)) in Heq.
  change ("=" +:+ fmt v2) with (String "="%char (fmt v2)) in Heq.
  destruct (app_sep_inj _ _ _ _ _ H1 H2 Heq) as [-> ->]. done.
Qed.

Lemma kw_parts_inj (s1 s2 : list (string * A)) :
  Forall (λ kv, has_char "="%char kv.1 = false) s1 →
  Forall (λ kv, has_char "="%char kv.1 = false) s2 →
  kw_part' <$> s1 = kw_part' <$> s2 →
  prod_map id fmt <$> s1 = prod_map id fmt <$> s2.
Proof.
  revert s2. induction s1 as [|kv1 s1 IH]; intros [|kv2 s2] H1 H2 Heq;
    try done.
  apply Forall_cons in H1 as [Hk1 H1]. apply Forall_cons in H2 as [Hk2 H2].
  rewrite !fmap_cons in Heq. rewrite !fmap_cons. simplify_eq.
  f_equal; [by apply kw_part_inj|by apply IH].
Qed.

(** The sorted items of safe keyword arguments are safe. *)
Lemma sorted_items_safe (P : string → A → Prop) (kwargs : gmap string A) :
  map_Forall P kwargs → Forall (uncurry P) (sorted_items kwargs).
Proof.
  intros HP. unfold sorted_items. rewrite merge_sort_Permutation.
  by apply map_Forall_to_list.
Qed.

Lemma key_parts_colon_free (p : string) (args : list A)
    (kwargs : gmap string A) :
  key_safe' p args kwargs →
  Forall (λ s, has_char ":"%char s = false)
    (p :: (str <$> args) ++ (kw_part' <$> sorted_items kwargs)).
Proof.
  intros (Hp & Hargs & Hkw). apply Forall_cons. split; [done|].
  apply Forall_app. split.
  - apply Forall_fmap. eapply Forall_impl; [done|]. by intros a [? ?].
  - apply Forall_fmap.
    eapply Forall_impl; [by apply sorted_items_safe|].
    intros [k v] (Hk & _ & Hv). by apply kw_part_colon_free.
Qed.

(** On safe inputs the key determines the prefix, the [str] forms of the
    positional arguments in order, and the [format] forms of the keyword
    arguments by name. *)
Lemma make_cache_key_inj (p1 p2 : string) (a1 a2 : list A)
    (k1 k2 : gmap string A) :
  key_safe' p1 a1 k1 → key_safe' p2 a2 k2 →
  _make_cache_key str fmt p1 a1 k1 = _make_cache_key str fmt p2 a2 k2 →
  p1 = p2 ∧ str <$> a1 = str <$> a2 ∧ fmt <$> k1 = fmt <$> k2.
Proof.
  intros Hs1 Hs2 Heq. unfold _make_cache_key in Heq.
  change ([p1] ++ (str <$> a1)) with (p1 :: (str <$> a1)) in Heq.
  change ([p2] ++ (str <$> a2)) with (p2 :: (str <$> a2)) in Heq.
  rewrite <-!app_comm_cons in Heq.
  apply concat_colon_inj in Heq;
    [|done|done|by apply key_parts_colon_free..].
  injection Heq as -> Heq. split; [done|].
  destruct Hs1 as (_ & Ha1 & Hk1), Hs2 as (_ & Ha2 & Hk2).
  apply (app_inj_pred (λ s, has_char "="%char s = false)) in Heq
    as [Hargs Hkw].
  - split; [done|].
    apply kw_parts_inj in Hkw.
    + apply map_to_list_inj. rewrite !map_to_list_fmap.
      unfold sorted_items in Hkw.
      rewrite <-(merge_sort_Permutation (λ x y, String.le x.1 y.1)
                   (map_to_list k1)), Hkw.
      by rewrite merge_sort_Permutation.
    + eapply Forall_impl; [by apply sorted_items_safe|].
      by intros [k v] (_ & Hk & _).
    + eapply Forall_impl; [by apply sorted_items_safe|].
      by intros [k v] (_ & Hk & _).
  - apply Forall_fmap. eapply Forall_impl; [done|]. by intros a [_ ?].
  - apply Forall_fmap. eapply Forall_impl; [done|]. by intros a [_ ?].
  - apply Forall_fmap, Forall_forall. intros kv _. simpl.
    by rewrite kw_part_has_eq.
  - apply Forall_fmap, Forall_forall. intros kv _. simpl.
    by rewrite kw_part_has_eq.
Qed.

End KeyInjectivity.

(** ** The decorator: the claims

    Consecutive calls are stated on worlds: the next call runs on the store
    and the trace the previous call left, in an environment that may have
    become any other in between (time passes, the configuration is patched,
    the wrapped operation has acted on it). *)

Section WrapperClaims.

Context {A V E Env : Type}.
Variable str : A → string.
Variable fmt : A → string.
Variable get_config : Env → config.
Variable time_time : Env → Q.
Variable key_prefix : option string.
Variable fn_name : string.
Variable fn : list A → gmap string A → Env → (E + V) * Env.

Abbreviation world := (@world A V Env).
Abbreviation wrapper' := (wrapper str fmt get_config time_time key_prefix fn_name fn).
Abbreviation check_cache' := (check_cache (A := A) (E := E) time_time).
Abbreviation run_calls' :=
  (run_calls str fmt get_config time_time key_prefix fn_name fn).
Abbreviation key_of args kwargs :=
  (_make_cache_key str fmt (prefix_or_name key_prefix fn_name) args kwargs).
Abbreviation enabled e := (enable_response_caching (get_config e)).
Abbreviation ttl e := (cache_ttl_seconds (get_config e)).

Lemma call_fn_eq (args : list A) (kwargs : gmap string A) (w : world) :
  call_fn (E := E) fn args kwargs w =
  (match (fn args kwargs (env w)).1 with
   | inl e => Raise (OpError e)
   | inr v => Return v
   end,
   World (_cache w) (fn args kwargs (env w)).2 (trace w ++ [Invoke args kwargs])).
Proof. unfold call_fn. by destruct (fn args kwargs (env w)) as [[e|v] env']. Qed.

(** The three ways a call of the wrapper can go. *)
Lemma wrapper_cases (args : list A) (kwargs : gmap string A) (w : world) :
  (enabled (env w) = false ∧
   wrapper' args kwargs w = call_fn fn args kwargs w) ∨
  (enabled (env w) = true ∧
   ∃ t v, _cache w !! key_of args kwargs = Some (t, v) ∧
     (time_time (env w) - t < ttl (env w))%Q ∧
     wrapper' args kwargs w =
     (Return v, World (_cache w) (env w) (trace w ++ [Acquire; Release]))) ∨
  (enabled (env w) = true ∧
   (∀ t v, _cache w !! key_of args kwargs = Some (t, v) →
      ¬ (time_time (env w) - t < ttl (env w))%Q) ∧
   wrapper' args kwargs w =
   match fn args kwargs (env w) with
   | (inl e, env') =>
       (Raise (OpError e),
        World (delete (key_of args kwargs) (_cache w)) env'
              (trace w ++ [Acquire; Release; Invoke args kwargs]))
   | (inr v, env') =>
       (Return v,
        World (<[key_of args kwargs := (time_time env', v)]> (_cache w)) env'
              (trace w ++ [Acquire; Release; Invoke args kwargs; Acquire; Release]))
   end).
Proof.
  destruct (enabled (env w)) eqn:Hon.
  - right.
    destruct (_cache w !! key_of args kwargs) as [[t v]|] eqn:Hk.
    + destruct (Qltb (time_time (env w) - t) (ttl (env w))) eqn:Hage.
      * left. split; [done|]. exists t, v. split; [done|].
        split; [by apply Qltb_iff|]. by apply (wrapper_hit _ _ _ _ _ _ _ _ _ _ t).
      * right. split; [done|]. split.
        -- intros t' v' ? Hlt. simplify_eq. apply Qltb_iff in Hlt. congruence.
        -- apply wrapper_miss; [done|]. intros t' v' ?. by simplify_eq.
    + right. split; [done|]. split; [done|].
      apply wrapper_miss; [done|]. intros t v Hs. by rewrite Hk in Hs.
  - left. split; [done|]. by apply wrapper_disabled.
Qed.

Lemma invocations_replicate (n : nat) (args : list A) (kwargs : gmap string A) :
  invocations (replicate n (Invoke args kwargs)) = n.
Proof. induction n as [|n IH]; simpl; [done|]. by rewrite IH. Qed.

(** C3. While [enable_response_caching] is false, a call of the wrapper is
    one call of the wrapped operation on the given arguments: its outcome is
    returned as it is, the store is left as it was, no lock is taken (the
    trace grows by the invocation alone), and any number of identical calls
    gives that many invocations. *)
Theorem disabled_passthrough (args : list A) (kwargs : gmap string A)
    (w : world) :
  enabled (env w) = false →
  wrapper' args kwargs w =
    (match (fn args kwargs (env w)).1 with
     | inl e => Raise (OpError e)
     | inr v => Return v
     end,
     World (_cache w) (fn args kwargs (env w)).2
           (trace w ++ [Invoke args kwargs])) ∧
  (∀ n,
     (∀ e, enabled e = false → enabled (fn args kwargs e).2 = false) →
     let w' := run_calls' (replicate n (args, kwargs)) w in
     _cache w' = _cache w ∧
     trace w' = trace w ++ replicate n (Invoke args kwargs) ∧
     invocations (trace w') = invocations (trace w) + n).
Proof.
  intros Hoff. split.
  { by rewrite wrapper_disabled, call_fn_eq. }
  intros n Hkeep. simpl.
  assert (Hrun : ∀ (w0 : world), enabled (env w0) = false →
    _cache (run_calls' (replicate n (args, kwargs)) w0) = _cache w0 ∧
    trace (run_calls' (replicate n (args, kwargs)) w0)
      = trace w0 ++ replicate n (Invoke args kwargs)).
  { induction n as [|n IH]; intros w0 Hw0; simpl.
    - by rewrite app_nil_r.
    - rewrite wrapper_disabled, call_fn_eq by done. simpl.
      destruct (IH (World (_cache w0) (fn args kwargs (env w0)).2
                          (trace w0 ++ [Invoke args kwargs]))) as [Hc Ht].
      { simpl. by apply Hkeep. }
      rewrite Hc, Ht. simpl. split; [done|].
      by rewrite <-app_assoc. }
  destruct (Hrun w Hoff) as [Hc Ht]. split_and!; [done|done|].
  by rewrite Ht, invocations_app, invocations_replicate.
Qed.

(** What a call that returns under enabled caching leaves in the store. *)
Lemma wrapper_return_entry (args : list A) (kwargs : gmap string A)
    (w : world) (v1 : V) :
  enabled (env w) = true →
  (wrapper' args kwargs w).1 = Return v1 →
  ∃ t, _cache (wrapper' args kwargs w).2 !! key_of args kwargs = Some (t, v1) ∧
    ((∀ t0 v0, _cache w !! key_of args kwargs = Some (t0, v0) →
        ¬ (time_time (env w) - t0 < ttl (env w))%Q) →
     t = time_time (env (wrapper' args kwargs w).2) ∧
     trace (wrapper' args kwargs w).2 =
       trace w ++ [Acquire; Release; Invoke args kwargs; Acquire; Release]).
Proof.
  intros Hon Hret.
  destruct (wrapper_cases args kwargs w)
    as [[Hoff _]|[[_ (t & v & Hk & Hage & Hw)]|[_ [Hstale Hw]]]].
  - congruence.
  - rewrite Hw in Hret |- *. simpl in *. simplify_eq. exists t.
    split; [done|]. intros Hmiss. by destruct (Hmiss t v1 Hk).
  - rewrite Hw in Hret |- *.
    destruct (fn args kwargs (env w)) as [[e|v] env']; simpl in *; [done|].
    simplify_eq. exists (time_time env'). by rewrite lookup_insert_eq.
Qed.

(** C1. With caching enabled and no expiry, the second of two consecutive
    calls on the same arguments finds the entry the first call left, returns
    the stored value, the value the first call returned, and does not call
    the operation; when the first call found no valid entry, the operation is
    invoked exactly once over the two calls. *)
Theorem hit_suppresses_recomputation (args : list A) (kwargs : gmap string A)
    (w : world) (e2 : Env) (v1 : V) :
  let key := key_of args kwargs in
  let r1 := wrapper' args kwargs w in
  let r2 := wrapper' args kwargs (World (_cache r1.2) e2 (trace r1.2)) in
  enabled (env w) = true →
  r1.1 = Return v1 →
  enabled e2 = true →
  (∀ t v, _cache r1.2 !! key = Some (t, v) → (time_time e2 - t < ttl e2)%Q) →
  r2.1 = Return v1 ∧
  _cache r2.2 = _cache r1.2 ∧
  env r2.2 = e2 ∧
  trace r2.2 = trace r1.2 ++ [Acquire; Release] ∧
  invocations (trace r2.2) = invocations (trace r1.2) ∧
  ((∀ t v, _cache w !! key = Some (t, v) →
      ¬ (time_time (env w) - t < ttl (env w))%Q) →
   _cache r1.2 !! key = Some (time_time (env r1.2), v1) ∧
   trace r2.2 = trace w ++ [Acquire; Release; Invoke args kwargs;
                            Acquire; Release; Acquire; Release] ∧
   invocations (trace r2.2) = S (invocations (trace w))).
Proof.
  intros key r1 r2 Hon Hret Hon2 Hfresh.
  destruct (wrapper_return_entry args kwargs w v1 Hon Hret)
    as (t & Hentry & Hmiss).
  fold r1 in Hentry, Hmiss. fold key in Hentry.
  assert (Hr2 : r2 = (Return v1,
    World (_cache r1.2) e2 (trace r1.2 ++ [Acquire; Release]))).
  { subst r2. set (w2 := World (_cache r1.2) e2 (trace r1.2)).
    rewrite (wrapper_hit str fmt get_config time_time key_prefix fn_name fn
               args kwargs w2 t v1); [reflexivity|done|done|].
    apply Qltb_iff. by apply (Hfresh t v1). }
  rewrite Hr2. simpl. split_and!; try done.
  - rewrite invocations_app. simpl. lia.
  - intros Hstale. destruct (Hmiss Hstale) as [-> Ht].
    split; [done|]. rewrite Ht, <-app_assoc. simpl. split; [done|].
    rewrite invocations_app. simpl. lia.
Qed.

(** A call with caching disabled, or without a valid entry, invokes the
    operation once. *)
Lemma wrapper_invokes (args : list A) (kwargs : gmap string A) (w : world) :
  enabled (env w) = false ∨
  (∀ t v, _cache w !! key_of args kwargs = Some (t, v) →
     ¬ (time_time (env w) - t < ttl (env w))%Q) →
  invocations (trace (wrapper' args kwargs w).2) = S (invocations (trace w)).
Proof.
  intros Hreach.
  destruct (wrapper_cases args kwargs w)
    as [[Hoff Hw]|[[Hon (t & v & Hk & Hage & Hw)]|[_ [Hstale Hw]]]];
    rewrite Hw.
  - rewrite call_fn_eq. simpl. rewrite invocations_app. simpl. lia.
  - destruct Hreach as [Hoff|Hstale]; [congruence|].
    by destruct (Hstale t v Hk).
  - destruct (fn args kwargs (env w)) as [[e|v] env']; simpl;
      rewrite invocations_app; simpl; lia.
Qed.

(** A call that finds a valid entry does not invoke the operation. *)
Lemma wrapper_hit_invocations (args : list A) (kwargs : gmap string A)
    (w : world) (t : Q) (v : V) :
  enabled (env w) = true →
  _cache w !! key_of args kwargs = Some (t, v) →
  (time_time (env w) - t < ttl (env w))%Q →
  invocations (trace (wrapper' args kwargs w).2) = invocations (trace w).
Proof.
  intros Hon Hk Hage.
  rewrite (wrapper_hit _ _ _ _ _ _ _ _ _ _ t v) by (done || by apply Qltb_iff).
  simpl. rewrite invocations_app. simpl. lia.
Qed.

Lemma stale_after_ttl_1 (age limit : Q) :
  (limit == 1)%Q → (11 # 10 <= age)%Q → ¬ (age < limit)%Q.
Proof.
  intros Hlimit Hage. apply Qle_not_lt. rewrite Hlimit.
  apply Qle_trans with (11 # 10)%Q; [|done].
  unfold Qle. simpl. lia.
Qed.

(** C2. An entry found by the wrapper is valid iff its age at the lookup is
    below the TTL of the configuration read by that very call: then the
    stored value is returned and the operation is not called; otherwise the
    lookup deletes the entry from the store, answers as for an absent key,
    and the operation is called again. With a TTL of 1 second at the second
    call, two identical calls 1.1 seconds apart both invoke the operation,
    whatever the TTL was when the entry was written. *)
Theorem validity_decided_at_read (args : list A) (kwargs : gmap string A) :
  let key := key_of args kwargs in
  (∀ (w : world) (t : Q) (v : V),
     let r := wrapper' args kwargs w in
     let out := fn args kwargs (env w) in
     enabled (env w) = true →
     _cache w !! key = Some (t, v) →
     ((time_time (env w) - t < ttl (env w))%Q ↔
      invocations (trace r.2) = invocations (trace w)) ∧
     ((time_time (env w) - t < ttl (env w))%Q →
      r = (Return v, World (_cache w) (env w) (trace w ++ [Acquire; Release]))) ∧
     (¬ (time_time (env w) - t < ttl (env w))%Q →
      check_cache' (get_config (env w)) key w =
        (Return None,
         World (delete key (_cache w)) (env w) (trace w ++ [Acquire; Release])) ∧
      invocations (trace r.2) = S (invocations (trace w)) ∧
      _cache r.2 =
        match out.1 with
        | inl _ => delete key (_cache w)
        | inr v' => <[key := (time_time out.2, v')]> (_cache w)
        end)) ∧
  (∀ (w : world) (e2 : Env) (v1 : V),
     let r1 := wrapper' args kwargs w in
     let r2 := wrapper' args kwargs (World (_cache r1.2) e2 (trace r1.2)) in
     enabled (env w) = true →
     (∀ t v, _cache w !! key = Some (t, v) →
        ¬ (time_time (env w) - t < ttl (env w))%Q) →
     r1.1 = Return v1 →
     enabled e2 = true →
     (ttl e2 == 1)%Q →
     (11 # 10 <= time_time e2 - time_time (env r1.2))%Q →
     invocations (trace r1.2) = S (invocations (trace w)) ∧
     invocations (trace r2.2) = S (S (invocations (trace w)))).
Proof.
  intros key. split.
  - intros w t v r out Hon Hk.
    assert (Hvalid : (time_time (env w) - t < ttl (env w))%Q →
      r = (Return v, World (_cache w) (env w) (trace w ++ [Acquire; Release]))).
    { intros Hage. apply (wrapper_hit _ _ _ _ _ _ _ _ _ _ t); [done|done|].
      by apply Qltb_iff. }
    assert (Hstale : ¬ (time_time (env w) - t < ttl (env w))%Q →
      invocations (trace r.2) = S (invocations (trace w))).
    { intros Hage. apply wrapper_invokes. right.
      intros t' v' Hk'. fold key in Hk'. by simplify_eq. }
    split_and!.
    + split.
      * intros Hage. by apply (wrapper_hit_invocations _ _ _ t v).
      * intros Hsame.
        destruct (Qlt_le_dec (time_time (env w) - t) (ttl (env w)))
          as [Hage|Hage]; [done|].
        apply Qle_not_lt, Hstale in Hage. lia.
    + done.
    + intros Hage. split_and!; [|by apply Hstale|].
      * rewrite check_cache_eq, Hk.
        destruct (Qltb _ _) eqn:Hlt; [|done].
        by apply Qltb_iff in Hlt.
      * subst r out. rewrite wrapper_miss; [|done|].
        -- by destruct (fn args kwargs (env w)) as [[e|v'] env'].
        -- intros t' v' Hk'. fold key in Hk'. simplify_eq.
           destruct (Qltb _ _) eqn:Hlt; [|done].
           by apply Qltb_iff in Hlt.
  - intros w e2 v1 r1 r2 Hon Hmiss Hret Hon2 Hlimit Hlater.
    destruct (wrapper_return_entry args kwargs w v1 Hon Hret)
      as (t & Hentry & Hfirst).
    destruct (Hfirst Hmiss) as [-> Ht]. fold r1 in Hentry, Ht.
    assert (H1 : invocations (trace r1.2) = S (invocations (trace w))).
    { rewrite Ht, invocations_app. simpl. lia. }
    split; [done|]. rewrite <-H1.
    apply (wrapper_invokes args kwargs (World (_cache r1.2) e2 (trace r1.2))).
    right. intros t' v' Hk'.
    change (_cache r1.2 !! key_of args kwargs = Some (t', v')) in Hk'.
    change (¬ (time_time e2 - t' < ttl e2)%Q).
    rewrite Hentry in Hk'. injection Hk' as <- _.
    by apply stale_after_ttl_1.
Qed.

(** C4. An exception of the wrapped operation reaches the caller as it is,
    and it is the only kind of exception a call of the wrapper ends with. The
    failed call stores nothing: no entry is created or refreshed, none is
    left under the key when caching is enabled, and the next identical call
    under the same setting invokes the operation again. *)
Theorem failure_propagates_uncached (args : list A) (kwargs : gmap string A)
    (w : world) :
  let key := key_of args kwargs in
  let r := wrapper' args kwargs w in
  (∀ x, r.1 = Raise x →
     ∃ e, x = OpError e ∧ (fn args kwargs (env w)).1 = inl e ∧
       invocations (trace r.2) = S (invocations (trace w))) ∧
  (∀ e, (fn args kwargs (env w)).1 = inl e →
     invocations (trace r.2) = S (invocations (trace w)) →
     r.1 = Raise (OpError e) ∧
     _cache r.2 ⊆ _cache w ∧
     (enabled (env w) = true → _cache r.2 !! key = None) ∧
     (enabled (env w) = false → _cache r.2 = _cache w) ∧
     ∀ e2, enabled e2 = enabled (env w) →
       invocations
         (trace (wrapper' args kwargs (World (_cache r.2) e2 (trace r.2))).2)
       = S (invocations (trace r.2))).
Proof.
  intros key r. subst r.
  destruct (wrapper_cases args kwargs w)
    as [[Hoff Hw]|[[Hon (t & v & Hk & Hage & Hw)]|[Hon [Hstale Hw]]]].
  - pose proof (wrapper_invokes args kwargs w (or_introl Hoff)) as Hinv.
    rewrite Hw in Hinv |- *. rewrite call_fn_eq in Hinv |- *. simpl in *.
    split.
    + intros x Hx. destruct (fn args kwargs (env w)).1 as [e|v]; [|done].
      exists e. by simplify_eq.
    + intros e He _. rewrite He. split_and!; [done|done|congruence|done|].
      intros e2 He2. apply wrapper_invokes. left. simpl. congruence.
  - rewrite Hw. simpl. split; [done|].
    intros e _ Hinv. rewrite invocations_app in Hinv. simpl in Hinv. lia.
  - pose proof (wrapper_invokes args kwargs w (or_intror Hstale)) as Hinv.
    rewrite Hw in Hinv |- *.
    destruct (fn args kwargs (env w)) as [[e|v] env']; simpl in *.
    + split.
      * intros x Hx. exists e. by simplify_eq.
      * intros e' He' _. simplify_eq.
        split_and!; [done|apply delete_subseteq| |congruence|].
        -- intros _. apply lookup_delete_eq.
        -- intros e2 He2. apply wrapper_invokes. right. simpl.
           intros t v Hk. fold key in Hk. by rewrite lookup_delete_eq in Hk.
    + split; [done|]. intros e' He'. done.
Qed.

(** ** Keys and prefixes *)

Abbreviation invalidate' :=
  (invalidate (A := A) (V := V) (E := E) (Env := Env)).

Lemma make_cache_key_prefix (p : string) (args : list A)
    (kwargs : gmap string A) :
  ∃ rest, _make_cache_key str fmt p args kwargs = p +:+ rest.
Proof.
  unfold _make_cache_key.
  change ([p] ++ (str <$> args)) with (p :: (str <$> args)).
  rewrite <-app_comm_cons.
  destruct ((str <$> args) ++ (kw_part fmt <$> sorted_items kwargs))
    as [|x l].
  - exists "". by rewrite app_empty_r.
  - by eexists.
Qed.

(** A call changes the store at the key of the call at most. *)
Lemma wrapper_store_frame (args : list A) (kwargs : gmap string A)
    (w : world) (k : string) :
  k ≠ key_of args kwargs →
  _cache (wrapper' args kwargs w).2 !! k = _cache w !! k.
Proof.
  intros Hk.
  destruct (wrapper_cases args kwargs w)
    as [[_ Hw]|[[_ (t & v & _ & _ & Hw)]|[_ [_ Hw]]]]; rewrite Hw.
  - by rewrite call_fn_eq.
  - done.
  - destruct (fn args kwargs (env w)) as [[e|v] env']; simpl.
    + by rewrite lookup_delete_ne.
    + by rewrite lookup_insert_ne.
Qed.

Lemma run_calls_keys (calls : list (list A * gmap string A)) (w : world) :
  keys_start_with (prefix_or_name key_prefix fn_name) (_cache w) →
  keys_start_with (prefix_or_name key_prefix fn_name)
    (_cache (run_calls' calls w)).
Proof.
  revert w. induction calls as [|[args kwargs] calls IH]; intros w Hw; [done|].
  simpl. apply IH. intros k Hk.
  destruct (decide (k = key_of args kwargs)) as [->|Hne].
  - apply make_cache_key_prefix.
  - apply Hw. by rewrite <-(wrapper_store_frame args kwargs w k).
Qed.

(** C9. A key derived from prefix [p] is [p] followed by the rest, so it
    contains [p], and [invalidate p] leaves no entry under such a key. A
    wrapper changes the store only at the key of the call, which starts with
    its prefix; hence after any calls of the wrapper on an empty store,
    invalidating its prefix empties the store again. *)
Theorem prefix_invalidation :
  let P := prefix_or_name key_prefix fn_name in
  (∀ p args kwargs, ∃ rest, _make_cache_key str fmt p args kwargs = p +:+ rest) ∧
  (∀ p args kwargs, str_in p (_make_cache_key str fmt p args kwargs) = true) ∧
  (∀ p args kwargs (w : world),
     _cache (invalidate' p w).2 !! _make_cache_key str fmt p args kwargs = None) ∧
  (∀ args kwargs (w : world) k,
     _cache (wrapper' args kwargs w).2 !! k ≠ _cache w !! k →
     k = _make_cache_key str fmt P args kwargs) ∧
  (∀ p calls (w : world),
     p = P ∨ key_prefix = Some p →
     _cache w = ∅ →
     _cache (invalidate' p (run_calls' calls w)).2 = ∅).
Proof.
  intros P.
  assert (Hin : ∀ p args kwargs,
    str_in p (_make_cache_key str fmt p args kwargs) = true).
  { intros p args kwargs.
    destruct (make_cache_key_prefix p args kwargs) as [rest ->].
    apply str_in_prefix. }
  split_and!.
  - apply make_cache_key_prefix.
  - done.
  - intros p args kwargs w. rewrite invalidate_eq. simpl.
    apply map_lookup_filter_None. right. intros e _ Hnot.
    apply Hnot. unfold matches. simpl. apply Hin.
  - intros args kwargs w k Hk.
    destruct (decide (k = key_of args kwargs)) as [->|Hne]; [done|].
    by rewrite wrapper_store_frame in Hk.
  - intros p calls w Hp Hempty. rewrite invalidate_eq. simpl.
    apply map_empty. intros k. apply map_lookup_filter_None. right.
    intros e Hk Hnot. apply Hnot. unfold matches. simpl.
    destruct (run_calls_keys calls w) with (k := k) as [rest ->]; [|by eauto|].
    { intros k' Hk'. rewrite Hempty, lookup_empty in Hk'. by destruct Hk'. }
    destruct Hp as [->|Hp]; [apply str_in_prefix|].
    subst P. unfold prefix_or_name. rewrite Hp.
    destruct (decide (p = "")) as [->|_]; [apply str_in_empty|apply str_in_prefix].
Qed.

(** ** Key discrimination *)

Lemma make_cache_key_single (p : string) (x : A) :
  _make_cache_key str fmt p [x] ∅ = p +:+ ":" +:+ str x.
Proof.
  unfold _make_cache_key, sorted_items. by rewrite map_to_list_empty.
Qed.

Lemma make_cache_key_single_ne (p : string) (x y : A) :
  str x ≠ str y → _make_cache_key str fmt p [x] ∅ ≠ _make_cache_key str fmt p [y] ∅.
Proof.
  intros Hne Heq. rewrite !make_cache_key_single in Heq.
  apply Hne. by do 2 apply (inj (String.app _)) in Heq.
Qed.

(** C5, as amended. [str] is the string form of a positional argument and
    [fmt] the form [format(v, "")] of a keyword value inside the f-string.
    On inputs whose parts are free of the separators (no [:] in the prefix,
    in the [str] form of a positional argument, in a keyword name or in the
    [fmt] form of a keyword value, no [=] in the [str] form of a positional
    argument or in a keyword name), a difference in the prefix, in the [str]
    forms of the positional arguments or their order, or in the keyword
    names or the [fmt] forms of their values gives a different key; when
    [str] and [fmt] are injective, so does any difference in the arguments
    themselves. With caching enabled and no expiry, calls on a, b and a
    again, where a and b differ in string form, invoke the operation exactly
    twice, the third call being a hit. *)
Theorem safe_keys_discriminate :
  (∀ p1 p2 a1 a2 k1 k2,
     key_safe str fmt p1 a1 k1 → key_safe str fmt p2 a2 k2 →
     p1 ≠ p2 ∨ str <$> a1 ≠ str <$> a2 ∨ fmt <$> k1 ≠ fmt <$> k2 →
     _make_cache_key str fmt p1 a1 k1 ≠ _make_cache_key str fmt p2 a2 k2) ∧
  (Inj (=) (=) str → Inj (=) (=) fmt →
   ∀ p1 p2 a1 a2 k1 k2,
     key_safe str fmt p1 a1 k1 → key_safe str fmt p2 a2 k2 →
     p1 ≠ p2 ∨ a1 ≠ a2 ∨ k1 ≠ k2 →
     _make_cache_key str fmt p1 a1 k1 ≠ _make_cache_key str fmt p2 a2 k2) ∧
  (∀ (x y : A) (w : world) (e1 e2 : Env) (v1 v2 : V),
     let r1 := wrapper' [x] ∅ w in
     let r2 := wrapper' [y] ∅ (World (_cache r1.2) e1 (trace r1.2)) in
     let r3 := wrapper' [x] ∅ (World (_cache r2.2) e2 (trace r2.2)) in
     str x ≠ str y →
     enabled (env w) = true → enabled e1 = true → enabled e2 = true →
     _cache w !! key_of [x] ∅ = None →
     _cache w !! key_of [y] ∅ = None →
     r1.1 = Return v1 → r2.1 = Return v2 →
     (time_time e2 - time_time (env r1.2) < ttl e2)%Q →
     r3.1 = Return v1 ∧
     trace r3.2 = trace r2.2 ++ [Acquire; Release] ∧
     invocations (trace r3.2) = S (S (invocations (trace w)))).
Proof.
  split_and!.
  - intros p1 p2 a1 a2 k1 k2 Hs1 Hs2 Hdiff Heq.
    destruct (make_cache_key_inj str fmt p1 p2 a1 a2 k1 k2 Hs1 Hs2 Heq)
      as (Hp & Ha & Hk).
    by destruct Hdiff as [?|[?|?]].
  - intros Hinj Hinj' p1 p2 a1 a2 k1 k2 Hs1 Hs2 Hdiff Heq.
    destruct (make_cache_key_inj str fmt p1 p2 a1 a2 k1 k2 Hs1 Hs2 Heq)
      as (Hp & Ha & Hk).
    apply (inj (fmap str)) in Ha. apply (inj (fmap fmt)) in Hk.
    by destruct Hdiff as [?|[?|?]].
  - intros x y w e1 e2 v1 v2 r1 r2 r3 Hxy Hon Hon1 Hon2 Hx Hy Hret1 Hret2 Hage.
    assert (Hkeys : key_of [x] ∅ ≠ key_of [y] ∅).
    { by apply make_cache_key_single_ne. }
    destruct (wrapper_return_entry [x] ∅ w v1 Hon Hret1)
      as (t & Hentry & Hfirst).
    destruct Hfirst as [-> Ht1]. { intros t0 v0 Hk. by rewrite Hx in Hk. }
    fold r1 in Hentry, Ht1.
    set (w1 := World (_cache r1.2) e1 (trace r1.2)) in *.
    assert (Hinv2 : invocations (trace r2.2) = S (invocations (trace r1.2))).
    { apply (wrapper_invokes [y] ∅ w1). right. intros t0 v0 Hk.
      change (_cache r1.2 !! key_of [y] ∅ = Some (t0, v0)) in Hk.
      unfold r1 in Hk. rewrite wrapper_store_frame in Hk by done.
      by rewrite Hy in Hk. }
    assert (Hentry2 : _cache r2.2 !! key_of [x] ∅
                      = Some (time_time (env r1.2), v1)).
    { unfold r2. by rewrite wrapper_store_frame. }
    set (w2 := World (_cache r2.2) e2 (trace r2.2)) in *.
    assert (Hr3 : r3 = (Return v1,
      World (_cache r2.2) e2 (trace r2.2 ++ [Acquire; Release]))).
    { unfold r3.
      rewrite (wrapper_hit str fmt get_config time_time key_prefix fn_name fn
                 [x] ∅ w2 (time_time (env r1.2)) v1);
        [reflexivity|done|done|by apply Qltb_iff]. }
    rewrite Hr3. simpl. split_and!; [done|done|].
    rewrite invocations_app, Hinv2, Ht1, invocations_app. simpl. lia.
Qed.

End WrapperClaims.

(** * The scenarios of tests/utils/test_cache.py *)

Section Scenarios.

Import TestCache.

Abbreviation tworld := (@world string string tenv).

(** [test_caching_enabled]: two calls on a, TTL 30, one invocation. *)
Lemma hit_suppresses_recomputation_witness :
  let w := world_of ∅ 1000 (Config true 30) in
  let r1 := cached_test_func ["a"] ∅ w in
  let r2 := cached_test_func ["a"] ∅ r1.2 in
  r1.1 = Return "result-a" ∧ r2.1 = Return "result-a" ∧
  invocations (trace r2.2) = 1.
Proof.
  intros w r1 r2.
  pose proof (hit_suppresses_recomputation id id mock_config clock (Some "test")
                "test_func" test_func ["a"] ∅ w (env r1.2) "result-a") as H.
  cbv zeta in H.
  destruct H as (Hret & _ & _ & _ & _ & Hmiss).
  - vm_compute. reflexivity.
  - vm_compute. reflexivity.
  - vm_compute. reflexivity.
  - intros t v Hk. vm_compute in Hk. injection Hk as <- <-.
    vm_compute. reflexivity.
  - destruct Hmiss as (_ & _ & Hinv).
    { intros t v Hk. vm_compute in Hk. discriminate Hk. }
    split; [vm_compute; reflexivity|]. split.
    + vm_compute in Hret. vm_compute. exact Hret.
    + vm_compute in Hinv. vm_compute. exact Hinv.
Defined.

(** [test_cache_expiration]: TTL 1, a second call 1.1 seconds later. *)
Lemma validity_decided_at_read_witness :
  let w := world_of ∅ 1000 (Config true 1) in
  let r1 := cached_test_func ["a"] ∅ w in
  let r2 := cached_test_func ["a"] ∅ (sleep (11 # 10) r1.2) in
  invocations (trace r1.2) = 1 ∧ invocations (trace r2.2) = 2.
Proof.
  intros w r1 r2.
  pose proof (validity_decided_at_read id id mock_config clock (Some "test")
                "test_func" test_func ["a"] ∅) as [_ H].
  specialize (H w (env (sleep (11 # 10) r1.2)) "result-a").
  cbv zeta in H. destruct H as [H1 H2].
  - vm_compute. reflexivity.
  - intros t v Hk. vm_compute in Hk. discriminate Hk.
  - vm_compute. reflexivity.
  - vm_compute. reflexivity.
  - vm_compute. reflexivity.
  - vm_compute. discriminate.
  - split.
    + vm_compute in H1. vm_compute. exact H1.
    + vm_compute in H2. vm_compute. exact H2.
Defined.

(** [test_caching_disabled_by_default]: two calls on a, two invocations. *)
Lemma disabled_passthrough_witness :
  let w := world_of ∅ 1000 (Config false 30) in
  (cached_test_func ["a"] ∅ w).1 = Return "result-a" ∧
  invocations
    (trace (run_calls id id mock_config clock (Some "test") "test_func" test_func
              [(["a"], ∅); (["a"], ∅)] w)) = 2.
Proof.
  intros w.
  destruct (disabled_passthrough id id mock_config clock (Some "test")
              "test_func" test_func ["a"] ∅ w) as [Hcall Hrep].
  - vm_compute. reflexivity.
  - specialize (Hrep 2). cbv zeta in Hrep.
    destruct Hrep as (_ & _ & Hinv).
    { intros e He. vm_compute in He. vm_compute. exact He. }
    split.
    + apply (f_equal fst) in Hcall. vm_compute in Hcall. vm_compute.
      exact Hcall.
    + vm_compute in Hinv. vm_compute. exact Hinv.
Defined.

(** A failing operation: the exception comes through, nothing is stored,
    and the next call invokes the operation again. *)
Lemma failure_propagates_uncached_witness :
  let w := world_of ∅ 1000 (Config true 30) in
  let r := cached_failing_func ["a"] ∅ w in
  r.1 = Raise (OpError "ApiException") ∧ _cache r.2 !! "test:a" = None ∧
  invocations (trace (cached_failing_func ["a"] ∅ r.2).2) = 2.
Proof.
  intros w r.
  pose proof (failure_propagates_uncached id id mock_config clock (Some "test")
                "failing_func" failing_func ["a"] ∅ w) as H.
  cbv zeta in H. destruct H as [_ H].
  destruct (H "ApiException") as (Hraise & _ & Hnone & _ & Hnext).
  - vm_compute. reflexivity.
  - vm_compute. reflexivity.
  - specialize (Hnone eq_refl). specialize (Hnext (env r.2) eq_refl).
    split_and!.
    + vm_compute in Hraise. vm_compute. exact Hraise.
    + vm_compute in Hnone. vm_compute. exact Hnone.
    + vm_compute in Hnext. vm_compute. exact Hnext.
Defined.

(** A string with [:] inside is taken for two arguments: the claim that any
    difference in the arguments gives a different key fails. *)
Lemma key_collision :
  ["a:b"] ≠ ["a"; "b"] ∧
  _make_cache_key (A := string) id id "p" ["a:b"] ∅
  = _make_cache_key (A := string) id id "p" ["a"; "b"] ∅.
Proof. split; [discriminate|]. vm_compute. reflexivity. Qed.

(** [test_different_args_different_cache_keys]: a, b, a. *)
Lemma safe_keys_discriminate_witness :
  let w := world_of ∅ 1000 (Config true 30) in
  let r1 := cached_test_func ["a"] ∅ w in
  let r2 := cached_test_func ["b"] ∅ r1.2 in
  let r3 := cached_test_func ["a"] ∅ r2.2 in
  _make_cache_key (A := string) id id "test" ["a"] {["ns" := "x"]}
  ≠ _make_cache_key (A := string) id id "test" ["a"] {["ns" := "y"]} ∧
  r3.1 = Return "result-a" ∧ invocations (trace r3.2) = 2.
Proof.
  intros w r1 r2 r3.
  destruct (safe_keys_discriminate id id mock_config clock (Some "test")
              "test_func" test_func) as (Hkeys & _ & Hcalls).
  split.
  - apply Hkeys.
    + split_and!; [vm_compute; reflexivity|by repeat constructor|].
      apply map_Forall_singleton. vm_compute. done.
    + split_and!; [vm_compute; reflexivity|by repeat constructor|].
      apply map_Forall_singleton. vm_compute. done.
    + right. right. rewrite !map_fmap_singleton. intros Heq.
      apply (f_equal (lookup "ns")) in Heq.
      rewrite !lookup_singleton_eq in Heq. discriminate Heq.
  - specialize (Hcalls "a" "b" w (env r1.2) (env r2.2) "result-a" "result-b").
    cbv zeta in Hcalls. destruct Hcalls as (Hret & _ & Hinv).
    + discriminate.
    + vm_compute. reflexivity.
    + vm_compute. reflexivity.
    + vm_compute. reflexivity.
    + vm_compute. reflexivity.
    + vm_compute. reflexivity.
    + vm_compute. reflexivity.
    + vm_compute. reflexivity.
    + vm_compute. reflexivity.
    + split.
      * vm_compute in Hret. vm_compute. exact Hret.
      * vm_compute in Hinv. vm_compute. exact Hinv.
Defined.

(** [test_clear_expired]: an entry 100 seconds old and a new one, TTL 30. *)
Lemma clear_expired_removes_expired_witness :
  let w := world_of (<["old" := (900%Q, "old_value")]>
                       {["new" := (1000%Q, "new_value")]}) 1000 (Config true 30) in
  let r := clear_expired (A := string) (E := string) mock_config clock w in
  r.1 = Return 1%Z ∧ _cache r.2 = {["new" := (1000%Q, "new_value")]}.
Proof.
  intros w r.
  pose proof (clear_expired_removes_expired (A := string) (E := string)
                mock_config clock w) as H.
  cbv zeta in H. destruct H as (_ & _ & _ & _ & _ & _ & H).
  apply (H "old" "new" (900%Q, "old_value") (1000%Q, "new_value")).
  - discriminate.
  - reflexivity.
  - vm_compute. discriminate.
  - vm_compute. reflexivity.
Defined.

(** [test_invalidate_pattern]. *)
Lemma invalidate_removes_matching_witness :
  let w := world_of (<["workbenches:ns1" := (1000%Q, "[]")]>
                       (<["workbenches:ns2" := (1000%Q, "[]")]>
                          {["projects:all" := (1000%Q, "[]")]}))
                    1000 (Config true 30) in
  let r := invalidate (A := string) (E := string) "workbenches" w in
  r.1 = Return 2%Z ∧ _cache r.2 = {["projects:all" := (1000%Q, "[]")]}.
Proof.
  intros w r.
  pose proof (invalidate_removes_matching (A := string) (E := string)
                "workbenches" w) as H.
  cbv zeta in H. destruct H as (_ & _ & _ & _ & _ & _ & H).
  apply (H eq_refl (1000%Q, "[]") (1000%Q, "[]") (1000%Q, "[]")).
  reflexivity.
Defined.

(** [test_cache_stats]: a fresh and a stale entry, TTL 30. *)
Lemma cache_stats_read_only_witness :
  let w := world_of (<["stale" := (900%Q, "old_value")]>
                       {["fresh" := (1000%Q, "value")]}) 1000 (Config true 30) in
  let r := cache_stats (A := string) (E := string) mock_config clock w in
  r.1 = Return (Stats 2 1 1 true 30) ∧
  _cache r.2 !! "stale" = Some (900%Q, "old_value") ∧
  (clear_expired (A := string) (E := string) mock_config clock r.2).1
  = Return 1%Z.
Proof.
  intros w r.
  pose proof (cache_stats_read_only (A := string) (E := string)
                mock_config clock w) as H.
  cbv zeta in H. destruct H as (Hstats & _ & _ & _ & _ & _ & H).
  destruct (H "stale" "fresh" (900%Q, "old_value") (1000%Q, "value"))
    as (Htotal & Hexpired & Hactive & Hkept & Hclear & _).
  - discriminate.
  - reflexivity.
  - vm_compute. discriminate.
  - vm_compute. reflexivity.
  - split_and!.
    + subst r. rewrite Hstats, Htotal, Hexpired. reflexivity.
    + exact Hkept.
    + exact Hclear.
Defined.

(** After calls on a and b, invalidating the prefix empties the store. *)
Lemma prefix_invalidation_witness :
  let w := world_of ∅ 1000 (Config true 30) in
  _cache (invalidate (E := string) "test"
            (run_calls id id mock_config clock (Some "test") "test_func" test_func
               [(["a"], ∅); (["b"], ∅)] w)).2 = ∅.
Proof.
  intros w.
  pose proof (prefix_invalidation id id mock_config clock (Some "test")
                "test_func" test_func) as H.
  cbv zeta in H. destruct H as (_ & _ & _ & _ & H).
  apply H.
  - left. reflexivity.
  - reflexivity.
Defined.

End Scenarios.

(** * Further properties of the cache module *)

Lemma length_app_str (s1 s2 : string) :
  String.length (s1 +:+ s2) = String.length s1 + String.length s2.
Proof.
  induction s1 as [|a s1 IH]; [done|]. rewrite app_String. simpl. by rewrite IH.
Qed.

(** Strings with a common tail and equal wholes have equal fronts. *)
Lemma app_inv_tail_str (s1 s2 r : string) :
  s1 +:+ r = s2 +:+ r → s1 = s2.
Proof.
  revert s2. induction s1 as [|a s1 IH]; intros [|b s2] Heq.
  - done.
  - apply (f_equal String.length) in Heq.
    rewrite app_empty_l, app_String in Heq. simpl in Heq.
    rewrite length_app_str in Heq. lia.
  - apply (f_equal String.length) in Heq.
    rewrite app_empty_l, app_String in Heq. simpl in Heq.
    rewrite length_app_str in Heq. lia.
  - rewrite !app_String in Heq. simplify_eq. f_equal. by apply IH.
Qed.

Lemma str_in_trans (p q k : string) :
  str_in p q = true → str_in q k = true → str_in p k = true.
Proof.
  rewrite !str_in_iff. intros (l1 & r1 & ->) (l2 & r2 & ->).
  exists (l2 +:+ l1), (r1 +:+ r2).
  induction l2 as [|a l2 IH]; simpl.
  - rewrite !app_empty_l. clear.
    induction l1 as [|a l1 IH]; simpl.
    + rewrite !app_empty_l. clear.
      induction p as [|a p IH]; [done|]. by rewrite !app_String, IH.
    + by rewrite !app_String, IH.
  - by rewrite !app_String, IH.
Qed.

Lemma lock_ok_app {A} (held : bool) (t1 t2 : list (@event A)) :
  lock_ok held t1 = true → lock_ok held (t1 ++ t2) = lock_ok false t2.
Proof.
  revert held. induction t1 as [|[| |args kwargs] t1 IH]; intros held; simpl.
  - by destruct held.
  - intros [Hh H]%andb_true_iff. destruct held; [done|]. by apply IH.
  - intros [Hh H]%andb_true_iff. destruct held; [|done]. by apply IH.
  - intros [Hh H]%andb_true_iff. destruct held; [done|]. by apply IH.
Qed.

Section FilterFacts.

Context {V : Type}.

Lemma filter_not_of_filter (P : string * (Q * V) → Prop)
    `{!∀ kv, Decision (P kv)} (c : gmap string (Q * V)) :
  filter P (filter (λ kv, ¬ P kv) c) = ∅ ∧
  filter (λ kv, ¬ P kv) (filter (λ kv, ¬ P kv) c) = filter (λ kv, ¬ P kv) c.
Proof.
  split.
  - apply map_empty. intros k. apply map_lookup_filter_None.
    destruct (filter (λ kv, ¬ P kv) c !! k) as [e|] eqn:Hk; [right|by left].
    intros e' ? HP. simplify_eq.
    by apply map_lookup_filter_Some in Hk as [_ Hk].
  - apply map_filter_id. intros k e Hk.
    by apply map_lookup_filter_Some in Hk as [_ Hk].
Qed.

End FilterFacts.

Section CacheExtras.

Context {A V E Env : Type}.
Variable str : A → string.
Variable fmt : A → string.
Variable get_config : Env → config.
Variable time_time : Env → Q.
Variable key_prefix : option string.
Variable fn_name : string.
Variable fn : list A → gmap string A → Env → (E + V) * Env.

Abbreviation world := (@world A V Env).
Abbreviation wrapper' := (wrapper str fmt get_config time_time key_prefix fn_name fn).
Abbreviation run_calls' :=
  (run_calls str fmt get_config time_time key_prefix fn_name fn).
Abbreviation key_of args kwargs :=
  (_make_cache_key str fmt (prefix_or_name key_prefix fn_name) args kwargs).
Abbreviation enabled e := (enable_response_caching (get_config e)).
Abbreviation ttl e := (cache_ttl_seconds (get_config e)).
Abbreviation clear_cache' := (clear_cache (A := A) (V := V) (E := E) (Env := Env)).
Abbreviation clear_expired' := (clear_expired (A := A) (V := V) (E := E) get_config time_time).
Abbreviation cache_stats' := (cache_stats (A := A) (V := V) (E := E) get_config time_time).
Abbreviation invalidate' := (invalidate (A := A) (V := V) (E := E) (Env := Env)).
Abbreviation expired_in' := (expired_in (V := V) get_config time_time).

(** X1. [clear_cache] returns the number of entries and leaves the store
    empty: clearing again returns 0, the statistics are all zero, and the
    next call of any decorated operation, whatever its arguments and the
    configuration, invokes the operation. *)
Theorem clear_cache_resets (w : world) :
  let r := clear_cache' w in
  r.1 = Return (Z.of_nat (size (_cache w))) ∧
  _cache r.2 = ∅ ∧
  env r.2 = env w ∧
  (clear_cache' r.2).1 = Return 0%Z ∧
  (cache_stats' r.2).1 =
    Return (Stats 0 0 0 (enabled (env w)) (ttl (env w))) ∧
  (∀ args kwargs e2,
     invocations
       (trace (wrapper' args kwargs (World (_cache r.2) e2 (trace r.2))).2)
     = S (invocations (trace r.2))).
Proof.
  intros r. subst r. rewrite (clear_cache_eq w).
  cbn [fst snd _cache env trace].
  split_and!.
  - done.
  - done.
  - done.
  - rewrite clear_cache_eq. simpl. by rewrite map_size_empty.
  - rewrite cache_stats_eq. simpl.
    by rewrite map_filter_empty, map_size_empty.
  - intros args kwargs e2.
    apply (wrapper_invokes str fmt get_config time_time key_prefix fn_name fn
             args kwargs (World ∅ e2 (trace w ++ [Acquire; Release]))).
    right. simpl. intros t v Hk. by rewrite lookup_empty in Hk.
Qed.

(** X2. Lock discipline. On a trace in order, every operation of the module
    leaves a trace in order: [_cache_lock] is never acquired while held, is
    always released, and the wrapped operation is only ever invoked while the
    lock is free, on a hit, on a miss, when the operation raises and when
    caching is disabled. *)
Theorem lock_discipline (w : world) :
  lock_ok false (trace w) = true →
  (∀ args kwargs, lock_ok false (trace (wrapper' args kwargs w).2) = true) ∧
  lock_ok false (trace (clear_cache' w).2) = true ∧
  lock_ok false (trace (clear_expired' w).2) = true ∧
  lock_ok false (trace (cache_stats' w).2) = true ∧
  (∀ pattern, lock_ok false (trace (invalidate' pattern w).2) = true).
Proof.
  intros Hw. split_and!.
  - intros args kwargs.
    destruct (wrapper_cases str fmt get_config time_time key_prefix fn_name fn
                args kwargs w)
      as [[_ Hr]|[[_ (t & v & _ & _ & Hr)]|[_ [_ Hr]]]]; rewrite Hr.
    + rewrite call_fn_eq. simpl. by rewrite lock_ok_app.
    + simpl. by rewrite lock_ok_app.
    + destruct (fn args kwargs (env w)) as [[e|v] env']; simpl;
        by rewrite lock_ok_app.
  - rewrite clear_cache_eq. simpl. by rewrite lock_ok_app.
  - rewrite clear_expired_eq. simpl. by rewrite lock_ok_app.
  - rewrite cache_stats_eq. simpl. by rewrite lock_ok_app.
  - intros pattern. rewrite invalidate_eq. simpl. by rewrite lock_ok_app.
Qed.

(** X3. After [clear_expired], in the same environment, nothing is left to
    expire: a second [clear_expired] returns 0 and leaves the store as it
    is, and [cache_stats] reports no expired entry and every entry active. *)
Theorem clear_expired_idempotent (w : world) :
  let r := clear_expired' w in
  let left := Z.of_nat (size (_cache r.2)) in
  env r.2 = env w ∧
  (clear_expired' r.2).1 = Return 0%Z ∧
  _cache (clear_expired' r.2).2 = _cache r.2 ∧
  (cache_stats' r.2).1 =
    Return (Stats left 0 left (enabled (env w)) (ttl (env w))).
Proof.
  intros r left. subst r left.
  rewrite (clear_expired_eq get_config time_time w).
  cbn [fst snd _cache env trace].
  destruct (filter_not_of_filter (expired_in' (env w)) (_cache w))
    as [Hnone Hsame].
  split_and!; [done|..].
  - rewrite clear_expired_eq. simpl. by rewrite Hnone.
  - rewrite clear_expired_eq. simpl. by rewrite Hsame.
  - rewrite cache_stats_eq. simpl. rewrite Hnone, map_size_empty.
    do 2 f_equal. lia.
Qed.

(** X4. [invalidate] composes: a second [invalidate] of the same pattern
    returns 0 and leaves the store as it is; two invalidations leave the same
    store in either order; and a pattern that occurs in another removes every
    entry the other removes. *)
Theorem invalidate_composes (p q : string) (w : world) :
  (invalidate' p (invalidate' p w).2).1 = Return 0%Z ∧
  _cache (invalidate' p (invalidate' p w).2).2 = _cache (invalidate' p w).2 ∧
  _cache (invalidate' q (invalidate' p w).2).2
  = _cache (invalidate' p (invalidate' q w).2).2 ∧
  (str_in p q = true →
   ∀ k, _cache (invalidate' q w).2 !! k = None →
        _cache (invalidate' p w).2 !! k = None).
Proof.
  rewrite (invalidate_eq p w), (invalidate_eq q w).
  cbn [fst snd _cache env trace]. rewrite !invalidate_eq.
  cbn [fst snd _cache env trace].
  destruct (filter_not_of_filter (matches (V := V) p) (_cache w))
    as [Hnone Hsame].
  split_and!.
  - by rewrite Hnone.
  - done.
  - apply map_filter_comm.
  - intros Hpq k Hk. apply map_lookup_filter_None.
    apply map_lookup_filter_None in Hk as [Hk|Hk]; [by left|right].
    intros e He Hnot. apply (Hk e He). intros Hq. apply Hnot.
    unfold matches in *. simpl in *. by apply (str_in_trans p q k).
Qed.

(** X5. [clear_expired] and the wrapper agree on what is stale: with
    caching enabled, an entry that [clear_expired] leaves under the key of a
    call is served to that call in the same environment without invoking the
    operation, and an entry it removes is one that call would not have
    served. *)
Theorem clear_expired_agrees_with_wrapper (args : list A)
    (kwargs : gmap string A) (w : world) :
  let key := key_of args kwargs in
  let r := clear_expired' w in
  enabled (env w) = true →
  (∀ t v, _cache r.2 !! key = Some (t, v) →
     wrapper' args kwargs (World (_cache r.2) (env w) (trace r.2)) =
     (Return v, World (_cache r.2) (env w) (trace r.2 ++ [Acquire; Release]))) ∧
  (∀ t v, _cache w !! key = Some (t, v) → _cache r.2 !! key = None →
     invocations (trace (wrapper' args kwargs w).2) = S (invocations (trace w))).
Proof.
  intros key r Hon. subst r.
  rewrite (clear_expired_eq get_config time_time w).
  cbn [fst snd _cache env trace]. split.
  - intros t v Hk.
    pose proof Hk as [_ Hfresh%not_expired_in_iff]%map_lookup_filter_Some.
    by rewrite (wrapper_hit str fmt get_config time_time key_prefix fn_name fn
                  args kwargs _ t v) by (done || by apply Qltb_iff).
  - intros t v Hk Hgone.
    apply map_lookup_filter_None in Hgone as [Hgone|Hgone]; [congruence|].
    apply wrapper_invokes. right. intros t' v' Hk' Hage.
    fold key in Hk'. simplify_eq.
    by apply (Hgone (t, v) Hk), not_expired_in_iff.
Qed.

(** X6. With a TTL of zero or less and a clock that has not gone back behind
    the stored timestamp, no call is ever a hit: the operation is invoked
    every time, and its result is still written to the store. *)
Theorem nonpositive_ttl_never_hits (args : list A) (kwargs : gmap string A)
    (w : world) :
  let key := key_of args kwargs in
  let r := wrapper' args kwargs w in
  let out := fn args kwargs (env w) in
  enabled (env w) = true →
  (ttl (env w) <= 0)%Q →
  (∀ t v, _cache w !! key = Some (t, v) → (t <= time_time (env w))%Q) →
  invocations (trace r.2) = S (invocations (trace w)) ∧
  (∀ v', out.1 = inr v' →
     r.1 = Return v' ∧ _cache r.2 !! key = Some (time_time out.2, v')).
Proof.
  intros key r out Hon Httl Hclock.
  assert (Hstale : ∀ t v, _cache w !! key = Some (t, v) →
    ¬ (time_time (env w) - t < ttl (env w))%Q).
  { intros t v Hk. apply Qle_not_lt.
    apply Qle_trans with 0%Q; [done|].
    apply (Qle_minus_iff t (time_time (env w))). by apply (Hclock t v). }
  split.
  - apply wrapper_invokes. by right.
  - intros v' Hout. subst r out.
    rewrite wrapper_miss; [|done|].
    + destruct (fn args kwargs (env w)) as [[e|v0] env']; simpl in *; [done|].
      simplify_eq. by rewrite lookup_insert_eq.
    + intros t v Hk. destruct (Qltb _ _) eqn:Hlt; [|done].
      apply Qltb_iff in Hlt. by destruct (Hstale t v Hk).
Qed.

(** X7. Entries are shared by prefix, not by operation: when two decorated
    operations have the same effective prefix ([key_prefix or fn.__name__]),
    a call of the second on the arguments of an earlier, unexpired call of
    the first returns the value of the first and does not invoke the
    second. *)
Theorem shared_prefix_shares_entries (key_prefix2 : option string)
    (fn_name2 : string) (fn2 : list A → gmap string A → Env → (E + V) * Env)
    (args : list A) (kwargs : gmap string A) (w : world) (e2 : Env) (v1 : V) :
  let key := key_of args kwargs in
  let r1 := wrapper' args kwargs w in
  let r2 := wrapper str fmt get_config time_time key_prefix2 fn_name2 fn2
              args kwargs (World (_cache r1.2) e2 (trace r1.2)) in
  prefix_or_name key_prefix fn_name = prefix_or_name key_prefix2 fn_name2 →
  enabled (env w) = true →
  r1.1 = Return v1 →
  enabled e2 = true →
  (∀ t v, _cache r1.2 !! key = Some (t, v) → (time_time e2 - t < ttl e2)%Q) →
  r2 = (Return v1, World (_cache r1.2) e2 (trace r1.2 ++ [Acquire; Release])).
Proof.
  intros key r1 r2 Hprefix Hon Hret Hon2 Hfresh.
  destruct (wrapper_return_entry str fmt get_config time_time key_prefix fn_name
              fn args kwargs w v1 Hon Hret) as (t & Hentry & _).
  fold r1 in Hentry. subst r2.
  set (w2 := World (_cache r1.2) e2 (trace r1.2)).
  rewrite (wrapper_hit str fmt get_config time_time key_prefix2 fn_name2 fn2
             args kwargs w2 t v1); [reflexivity|done| |].
  - rewrite <-Hprefix. exact Hentry.
  - apply Qltb_iff. by apply (Hfresh t v1).
Qed.

(** X8. Turning caching off does not flush the store: a call made while
    caching is disabled invokes the operation and leaves the entries alone,
    and once caching is enabled again, an unexpired entry written before is
    served without invoking the operation, whatever the disabled call
    returned in between. *)
Theorem disabling_keeps_entries (args : list A) (kwargs : gmap string A)
    (w : world) (e2 e3 : Env) (v1 : V) :
  let key := key_of args kwargs in
  let r1 := wrapper' args kwargs w in
  let r2 := wrapper' args kwargs (World (_cache r1.2) e2 (trace r1.2)) in
  let r3 := wrapper' args kwargs (World (_cache r2.2) e3 (trace r2.2)) in
  enabled (env w) = true →
  r1.1 = Return v1 →
  enabled e2 = false →
  enabled e3 = true →
  (∀ t v, _cache r1.2 !! key = Some (t, v) → (time_time e3 - t < ttl e3)%Q) →
  invocations (trace r2.2) = S (invocations (trace r1.2)) ∧
  _cache r2.2 = _cache r1.2 ∧
  r3.1 = Return v1 ∧
  invocations (trace r3.2) = invocations (trace r2.2).
Proof.
  intros key r1 r2 r3 Hon Hret Hoff Hon3 Hfresh.
  destruct (wrapper_return_entry str fmt get_config time_time key_prefix fn_name
              fn args kwargs w v1 Hon Hret) as (t & Hentry & _).
  fold r1 in Hentry.
  set (w1 := World (_cache r1.2) e2 (trace r1.2)) in *.
  assert (Hr2 : _cache r2.2 = _cache r1.2 ∧
                invocations (trace r2.2) = S (invocations (trace r1.2))).
  { subst r2.
    rewrite (wrapper_disabled str fmt get_config time_time key_prefix fn_name fn
               args kwargs w1), call_fn_eq by done.
    simpl. split; [done|]. rewrite invocations_app. simpl. lia. }
  destruct Hr2 as [Hc2 Hi2].
  set (w2 := World (_cache r2.2) e3 (trace r2.2)) in *.
  assert (Hr3 : r3 = (Return v1,
    World (_cache r2.2) e3 (trace r2.2 ++ [Acquire; Release]))).
  { subst r3.
    rewrite (wrapper_hit str fmt get_config time_time key_prefix fn_name fn
               args kwargs w2 t v1); [reflexivity|done| |].
    - simpl. by rewrite Hc2.
    - apply Qltb_iff. by apply (Hfresh t v1). }
  rewrite Hr3. simpl. split_and!; [done|done|done|].
  rewrite invocations_app. simpl. lia.
Qed.

(** The key of a call is the prefix, the string form of the first
    positional argument, and a tail that the other arguments determine. *)
Lemma make_cache_key_cons (p : string) (o : A) (rest : list A)
    (kwargs : gmap string A) :
  _make_cache_key str fmt p (o :: rest) kwargs =
  p +:+ ":" +:+ str o +:+
  match ((str <$> rest) ++ (kw_part fmt <$> sorted_items kwargs))%list with
  | []%list => ""
  | (part :: parts)%list => ":" +:+ String.concat ":" (part :: parts)%list
  end.
Proof.
  unfold _make_cache_key. rewrite fmap_cons.
  change ([p] ++ str o :: (str <$> rest)) with (p :: str o :: (str <$> rest)).
  rewrite <-!app_comm_cons, !concat_cons.
  destruct ((str <$> rest) ++ (kw_part fmt <$> sorted_items kwargs));
    [by rewrite app_empty_r|done].
Qed.

(** X9. The first positional argument, the instance of a decorated method,
    is part of the key: with the other arguments equal, two calls have the
    same key iff their first arguments have the same string form. So a call
    on an instance with another string form invokes the operation again,
    and a call on an instance with the same string form is served the entry
    of the first. *)
Theorem per_instance_keys (o1 o2 : A) (rest : list A)
    (kwargs : gmap string A) :
  (key_of (o1 :: rest) kwargs = key_of (o2 :: rest) kwargs ↔ str o1 = str o2) ∧
  (∀ (w : world) (e2 : Env) (v1 : V),
     let r1 := wrapper' (o1 :: rest) kwargs w in
     let r2 := wrapper' (o2 :: rest) kwargs
                 (World (_cache r1.2) e2 (trace r1.2)) in
     enabled (env w) = true →
     r1.1 = Return v1 →
     enabled e2 = true →
     (str o1 ≠ str o2 →
      _cache w !! key_of (o2 :: rest) kwargs = None →
      invocations (trace r2.2) = S (invocations (trace r1.2))) ∧
     (str o1 = str o2 →
      (∀ t v, _cache r1.2 !! key_of (o1 :: rest) kwargs = Some (t, v) →
         (time_time e2 - t < ttl e2)%Q) →
      r2.1 = Return v1 ∧
      invocations (trace r2.2) = invocations (trace r1.2))).
Proof.
  assert (Hkeys : key_of (o1 :: rest) kwargs = key_of (o2 :: rest) kwargs
                  ↔ str o1 = str o2).
  { rewrite !make_cache_key_cons. split; [|by intros ->].
    intros Heq. do 2 apply (inj (String.app _)) in Heq.
    by apply app_inv_tail_str in Heq. }
  split; [done|].
  intros w e2 v1 r1 r2 Hon Hret Hon2.
  set (w1 := World (_cache r1.2) e2 (trace r1.2)) in *. split.
  - intros Hne Habsent.
    apply (wrapper_invokes str fmt get_config time_time key_prefix fn_name fn
             (o2 :: rest) kwargs w1).
    right. intros t v Hk.
    change (_cache r1.2 !! key_of (o2 :: rest) kwargs = Some (t, v)) in Hk.
    unfold r1 in Hk. rewrite wrapper_store_frame in Hk; [congruence|].
    intros Heq. by apply Hne, Hkeys.
  - intros Heq Hfresh.
    destruct (wrapper_return_entry str fmt get_config time_time key_prefix fn_name
                fn (o1 :: rest) kwargs w v1 Hon Hret) as (t & Hentry & _).
    fold r1 in Hentry. apply Hkeys in Heq.
    assert (Hr2 : r2 = (Return v1,
      World (_cache r1.2) e2 (trace r1.2 ++ [Acquire; Release]))).
    { subst r2.
      rewrite (wrapper_hit str fmt get_config time_time key_prefix fn_name fn
                 (o2 :: rest) kwargs w1 t v1); [reflexivity|done| |].
      - rewrite <-Heq. exact Hentry.
      - apply Qltb_iff. by apply (Hfresh t v1). }
    rewrite Hr2. simpl. split; [done|].
    rewrite invocations_app. simpl. lia.
Qed.

Lemma wrapper_size (args : list A) (kwargs : gmap string A) (w : world) :
  size (_cache (wrapper' args kwargs w).2) ≤ S (size (_cache w)).
Proof.
  destruct (wrapper_cases str fmt get_config time_time key_prefix fn_name fn
              args kwargs w)
    as [[_ Hr]|[[_ (t & v & _ & _ & Hr)]|[_ [_ Hr]]]]; rewrite Hr.
  - rewrite call_fn_eq. simpl. lia.
  - simpl. lia.
  - destruct (fn args kwargs (env w)) as [[e|v] env']; simpl.
    + rewrite map_size_delete. destruct (_cache w !! _); simpl; lia.
    + rewrite map_size_insert. destruct (_cache w !! _); simpl; lia.
Qed.

(** X10. The store is never compacted by the wrapper: a sequence of calls
    adds at most one entry per call, and every entry under a key that is not
    the key of one of the calls is left as it was, expired or not. *)
Theorem store_growth_bounded (calls : list (list A * gmap string A))
    (w : world) :
  size (_cache (run_calls' calls w)) ≤ size (_cache w) + length calls ∧
  (∀ k, (∀ args kwargs, (args, kwargs) ∈ calls → k ≠ key_of args kwargs) →
        _cache (run_calls' calls w) !! k = _cache w !! k).
Proof.
  revert w. induction calls as [|[args kwargs] calls IH]; intros w.
  { simpl. split; [lia|done]. }
  simpl. destruct (IH (wrapper' args kwargs w).2) as [Hsize Hframe]. split.
  - pose proof (wrapper_size args kwargs w). lia.
  - intros k Hk. rewrite Hframe.
    + apply wrapper_store_frame, Hk. by left.
    + intros args' kwargs' Hin. apply Hk. by right.
Qed.

(** X11. An argument passed by position and the same argument passed by
    keyword have the same key only when the string form of the value is the
    keyword name, [=] and the format form of the value. The keys differ
    whenever the format form is the string form (the case of every value
    that does not override [__format__]) or the string form has no [=]; the
    keyword form of the call then never hits the entry of the positional form
    and invokes the operation again. *)
Theorem positional_and_keyword_keys (name : string) (x : A) :
  (key_of [x] ∅ = key_of [] {[name := x]} ↔
   str x = name +:+ "=" +:+ fmt x) ∧
  (fmt x = str x → key_of [x] ∅ ≠ key_of [] {[name := x]}) ∧
  (has_char "="%char (str x) = false →
   key_of [x] ∅ ≠ key_of [] {[name := x]}) ∧
  (∀ (w : world) (e2 : Env),
     let r1 := wrapper' [x] ∅ w in
     let r2 := wrapper' [] {[name := x]}
                 (World (_cache r1.2) e2 (trace r1.2)) in
     key_of [x] ∅ ≠ key_of [] {[name := x]} →
     _cache w !! key_of [] {[name := x]} = None →
     invocations (trace r2.2) = S (invocations (trace r1.2))).
Proof.
  assert (Hkeys : key_of [x] ∅ = key_of [] {[name := x]} ↔
                  str x = name +:+ "=" +:+ fmt x).
  { rewrite make_cache_key_single.
    unfold _make_cache_key, sorted_items. rewrite map_to_list_singleton.
    change (String.concat ":" (([prefix_or_name key_prefix fn_name] ++ [])
              ++ [kw_part fmt (name, x)]))
      with (prefix_or_name key_prefix fn_name +:+ ":" +:+ kw_part fmt (name, x)).
    unfold kw_part. simpl. split; [|by intros ->].
    intros Heq. by do 2 apply (inj (String.app _)) in Heq. }
  split_and!.
  - done.
  - intros Hfmt Heq. apply Hkeys in Heq. rewrite Hfmt in Heq.
    apply (f_equal String.length) in Heq.
    rewrite !length_app_str in Heq. simpl in Heq. lia.
  - intros Hplain Heq. apply Hkeys in Heq. rewrite Heq in Hplain.
    rewrite has_char_app in Hplain.
    apply orb_false_iff in Hplain as [_ Hplain]. discriminate Hplain.
  - intros w e2 r1 r2 Hne Habsent.
    apply (wrapper_invokes str fmt get_config time_time key_prefix fn_name fn
             [] {[name := x]} (World (_cache r1.2) e2 (trace r1.2))).
    right. intros t v Hk.
    change (_cache r1.2 !! key_of [] {[name := x]} = Some (t, v)) in Hk.
    unfold r1 in Hk. rewrite wrapper_store_frame in Hk; [congruence|].
    intros Heq. by apply Hne.
Qed.

End CacheExtras.

(** * Properties of the training discovery tools *)

Section DiscoveryJobs.

Import Discovery.

Context {Job Verb Item Val Env : Type}.
Variable client_list_training_jobs : string → Env → list Job.
Variable server_config : Env → list_config.
Variable paginate : list Job → Z → option Z → list Job * Z.
Variable Verbosity_from_str : string → Verb.
Variable training_job_list_item : Job → Verb → Item.
Variable PaginatedResponse_build :
  list Item → Z → Z → option Z → gmap string Val.
Variable str_value : string → Val.

Abbreviation list_training_jobs' :=
  (list_training_jobs client_list_training_jobs server_config paginate
     Verbosity_from_str training_job_list_item PaginatedResponse_build
     str_value).

(** X12. [list_training_jobs] pages and builds its response with one and the
    same limit: a limit given by the caller is capped at [max_list_limit]
    and never raised; without one, [default_list_limit] is used as it is,
    not capped, and absent if the configuration has none. The response is
    what [PaginatedResponse.build] made of the page, with the key namespace
    set to the namespace asked for, over whatever the builder put there. *)
Theorem list_training_jobs_limits (namespace : string) (limit : option Z)
    (offset : Z) (verbosity : string) (e : Env) :
  let config := server_config e in
  let lim := effective_limit limit config in
  let page := paginate (client_list_training_jobs namespace e) offset lim in
  let items :=
    (λ job, training_job_list_item job (Verbosity_from_str verbosity))
      <$> page.1 in
  let response := list_training_jobs' namespace limit offset verbosity e in
  response = <["namespace" := str_value namespace]>
               (PaginatedResponse_build items page.2 offset lim) ∧
  response !! "namespace" = Some (str_value namespace) ∧
  (∀ l, limit = Some l →
     ∃ l', lim = Some l' ∧ (l' <= max_list_limit config)%Z ∧ (l' <= l)%Z ∧
       ((l <= max_list_limit config)%Z → l' = l)) ∧
  (limit = None → lim = default_list_limit config) ∧
  (∀ d, limit = None → default_list_limit config = Some d →
     (max_list_limit config < d)%Z →
     lim = Some d ∧ effective_limit lim config = Some (max_list_limit config)).
Proof.
  intros config lim page items response.
  assert (Hresp : response = <["namespace" := str_value namespace]>
                    (PaginatedResponse_build items page.2 offset lim)).
  { subst response items page lim config. unfold list_training_jobs.
    by destruct (paginate _ _ _). }
  split_and!.
  - done.
  - by rewrite Hresp, lookup_insert_eq.
  - intros l ->. exists (Z.min l (max_list_limit config)).
    split_and!; [done|lia|lia|lia].
  - intros ->. subst lim. unfold effective_limit.
    by destruct (default_list_limit config).
  - intros d -> Hd Hbig. subst lim. unfold effective_limit. rewrite Hd.
    split; [done|]. f_equal. lia.
Qed.

End DiscoveryJobs.

Section DiscoveryRuntimes.

Import Discovery.

Context {Val Env : Type}.
Variable client_list_cluster_training_runtimes :
  Env → list (@training_runtime Val).
Variable client_list_training_runtimes :
  string → Env → list (@training_runtime Val).

Abbreviation list_training_runtimes' :=
  (list_training_runtimes client_list_cluster_training_runtimes
     client_list_training_runtimes).

(** X13. [list_training_runtimes] always lists the cluster-scoped runtimes
    first; without a namespace, or with the empty string, the
    namespace-scoped listing has no part in the result; with a namespace its
    runtimes follow, in order, and [count] is the sum of the two lengths.
    [count] is the number of entries, and the scope of an entry is cluster
    exactly when the runtime has no namespace, whichever listing it came
    from. *)
Theorem list_training_runtimes_listing (namespace : option string) (e : Env) :
  let r := list_training_runtimes' namespace e in
  let cluster := client_list_cluster_training_runtimes e in
  count r = Z.of_nat (length (runtimes r)) ∧
  (namespace = None ∨ namespace = Some "" →
   runtimes r = runtime_entry <$> cluster) ∧
  (∀ ns, namespace = Some ns → ns ≠ "" →
     runtimes r = (runtime_entry <$> cluster)
                  ++ (runtime_entry <$> client_list_training_runtimes ns e) ∧
     count r = (Z.of_nat (length cluster) +
                Z.of_nat (length (client_list_training_runtimes ns e)))%Z) ∧
  (∀ item, item ∈ runtimes r →
     (item_scope item = "cluster" ↔ item_namespace item = None) ∧
     (item_scope item = "namespace" ↔ is_Some (item_namespace item))).
Proof.
  intros r cluster. subst r cluster. unfold list_training_runtimes.
  cbn [count runtimes]. split_and!.
  - done.
  - intros [->| ->]; [done|]. by rewrite decide_True.
  - intros ns -> Hns. rewrite decide_False by done.
    rewrite fmap_app. split; [done|].
    rewrite length_app, !length_fmap. lia.
  - intros item [rt [-> _]]%list_elem_of_fmap. unfold runtime_entry. simpl.
    destruct (rt_namespace rt) as [n|]; split; split;
      first [done|by intros [? ?]|by eauto].
Qed.

End DiscoveryRuntimes.

(** * Instances of the further properties *)

Section ExtraScenarios.

Import TestCache TestExtra.

Abbreviation tw := (world_of ∅ 1000 (Config true 30)).

Lemma lock_discipline_witness :
  lock_ok false (trace (cached_test_func ["a"] ∅ tw).2) = true ∧
  lock_ok false
    (trace (invalidate (E := string) "test" (cached_test_func ["a"] ∅ tw).2).2)
  = true.
Proof.
  destruct (lock_discipline id id mock_config clock (Some "test") "test_func"
              test_func tw) as (Hcall & _ & _ & _ & _).
  { reflexivity. }
  split; [exact (Hcall ["a"] ∅)|].
  destruct (lock_discipline id id mock_config clock (Some "test") "test_func"
              test_func (cached_test_func ["a"] ∅ tw).2)
    as (_ & _ & _ & _ & Hinv).
  { exact (Hcall ["a"] ∅). }
  exact (Hinv "test").
Defined.

Lemma invalidate_composes_witness :
  let w := world_of (<["workbenches:ns1" := (1000%Q, "[]")]>
                       {["projects:all" := (1000%Q, "[]")]})
                    1000 (Config true 30) in
  _cache (invalidate (A := string) (E := string) "ns" w).2 !! "workbenches:ns1"
  = None.
Proof.
  intros w.
  destruct (invalidate_composes (A := string) (E := string)
              "ns" "workbenches:ns1" w) as (_ & _ & _ & Hsub).
  apply Hsub.
  - vm_compute. reflexivity.
  - vm_compute. reflexivity.
Defined.

Lemma clear_expired_agrees_with_wrapper_witness :
  let w := world_of {["test:a" := (990%Q, "result-a")]} 1000 (Config true 30) in
  let r := clear_expired (A := string) (E := string) mock_config clock w in
  (cached_test_func ["a"] ∅ (World (_cache r.2) (env w) (trace r.2))).1
  = Return "result-a".
Proof.
  intros w r.
  pose proof (clear_expired_agrees_with_wrapper id id mock_config clock
                (Some "test") "test_func" test_func ["a"] ∅ w) as H.
  cbv zeta in H. destruct H as [Hkept _].
  { vm_compute. reflexivity. }
  specialize (Hkept 990%Q "result-a").
  apply (f_equal fst) in Hkept.
  - vm_compute in Hkept. vm_compute. exact Hkept.
  - vm_compute. reflexivity.
Defined.

Lemma nonpositive_ttl_never_hits_witness :
  let w := world_of {["test:a" := (1000%Q, "result-a")]} 1000 (Config true 0) in
  invocations (trace (cached_test_func ["a"] ∅ w).2) = 1.
Proof.
  intros w.
  pose proof (nonpositive_ttl_never_hits id id mock_config clock (Some "test")
                "test_func" test_func ["a"] ∅ w) as H.
  cbv zeta in H. destruct H as [Hinv _].
  - vm_compute. reflexivity.
  - vm_compute. discriminate.
  - intros t v Hk. vm_compute in Hk. injection Hk as <- _.
    vm_compute. discriminate.
  - vm_compute in Hinv. vm_compute. exact Hinv.
Defined.

Lemma shared_prefix_shares_entries_witness :
  let r1 := cached_test_func ["a"] ∅ tw in
  (wrapper (V := string) id id mock_config clock (Some "test") "other_func"
     other_func ["a"] ∅ r1.2).1 = Return "result-a".
Proof.
  intros r1.
  pose proof (shared_prefix_shares_entries id id mock_config clock (Some "test")
                "test_func" test_func (Some "test") "other_func" other_func
                ["a"] ∅ tw (env r1.2) "result-a") as H.
  cbv zeta in H. apply (f_equal fst) in H.
  - vm_compute in H. vm_compute. exact H.
  - reflexivity.
  - vm_compute. reflexivity.
  - vm_compute. reflexivity.
  - vm_compute. reflexivity.
  - intros t v Hk. vm_compute in Hk. injection Hk as <- <-.
    vm_compute. reflexivity.
Defined.

Lemma disabling_keeps_entries_witness :
  let r1 := cached_test_func ["a"] ∅ tw in
  let r2 := cached_test_func ["a"] ∅ (patch_config (Config false 30) r1.2) in
  let r3 := cached_test_func ["a"] ∅ (patch_config (Config true 30) r2.2) in
  invocations (trace r2.2) = 2 ∧ invocations (trace r3.2) = 2 ∧
  r3.1 = Return "result-a".
Proof.
  intros r1 r2 r3.
  pose proof (disabling_keeps_entries id id mock_config clock (Some "test")
                "test_func" test_func ["a"] ∅ tw
                (env (patch_config (Config false 30) r1.2))
                (env (patch_config (Config true 30) r2.2)) "result-a") as H.
  cbv zeta in H. destruct H as (H2 & _ & Hret & H3).
  - vm_compute. reflexivity.
  - vm_compute. reflexivity.
  - vm_compute. reflexivity.
  - vm_compute. reflexivity.
  - intros t v Hk. vm_compute in Hk. injection Hk as <- <-.
    vm_compute. reflexivity.
  - split_and!.
    + vm_compute in H2. vm_compute. exact H2.
    + vm_compute in H3. vm_compute. exact H3.
    + vm_compute in Hret. vm_compute. exact Hret.
Defined.

(** [test_method_caching_per_instance]: two instances, one argument. *)
Lemma per_instance_keys_witness :
  let cached_method :=
    wrapper (V := string) id id mock_config clock (Some "method") "test_method"
      test_method in
  let r1 := cached_method ["obj1"; "a"] ∅ tw in
  let r2 := cached_method ["obj2"; "a"] ∅ r1.2 in
  invocations (trace r1.2) = 1 ∧ invocations (trace r2.2) = 2.
Proof.
  intros cached_method r1 r2.
  destruct (per_instance_keys id id mock_config clock (Some "method")
              "test_method" test_method "obj1" "obj2" ["a"] ∅) as [_ H].
  specialize (H tw (env r1.2) "result-a"). cbv zeta in H.
  destruct H as [Hother _].
  - vm_compute. reflexivity.
  - vm_compute. reflexivity.
  - vm_compute. reflexivity.
  - split; [vm_compute; reflexivity|].
    assert (Hinv := Hother ltac:(discriminate) ltac:(vm_compute; reflexivity)).
    vm_compute in Hinv. vm_compute. exact Hinv.
Defined.

Lemma store_growth_bounded_witness :
  let w := world_of {["projects:all" := (0%Q, "[]")]} 1000 (Config true 30) in
  let w' := run_calls id id mock_config clock (Some "test") "test_func" test_func
              [(["a"], ∅); (["b"], ∅)] w in
  size (_cache w') ≤ 3 ∧ _cache w' !! "projects:all" = Some (0%Q, "[]").
Proof.
  intros w w'.
  destruct (store_growth_bounded id id mock_config clock (Some "test")
              "test_func" test_func [(["a"], ∅); (["b"], ∅)] w)
    as [Hsize Hframe].
  split.
  - vm_compute in Hsize. vm_compute. exact Hsize.
  - specialize (Hframe "projects:all"). subst w'. rewrite Hframe.
    + vm_compute. reflexivity.
    + intros args kwargs Hin.
      apply elem_of_cons in Hin as [Hin|Hin];
        [|apply elem_of_cons in Hin as [Hin|Hin]; [|by apply elem_of_nil in Hin]];
        injection Hin as -> ->; vm_compute; discriminate.
Defined.

Lemma positional_and_keyword_keys_witness :
  let r1 := cached_test_func ["a"] ∅ tw in
  let r2 := cached_test_func [] {["arg" := "a"]} r1.2 in
  r2.1 = Return "result-a" ∧
  invocations (trace r2.2) = S (invocations (trace r1.2)).
Proof.
  intros r1 r2.
  destruct (positional_and_keyword_keys id id mock_config clock
              (Some "test") "test_func" test_func "arg" "a")
    as (_ & Hne & _ & H).
  specialize (H tw (env r1.2)). cbv zeta in H.
  assert (Hinv := H (Hne eq_refl) ltac:(vm_compute; reflexivity)).
  split; [vm_compute; reflexivity|].
  vm_compute in Hinv. vm_compute. exact Hinv.
Defined.

Lemma list_training_jobs_limits_witness :
  let config := Discovery.ListConfig 100 (Some 200%Z) in
  Discovery.effective_limit None config = Some 200%Z ∧
  Discovery.effective_limit (Some 200%Z) config = Some 100%Z ∧
  list_jobs_fixture "ns1" None 0 "minimal" config !! "namespace"
  = Some ["ns1"].
Proof.
  intros config.
  pose proof (list_training_jobs_limits jobs_fixture id paginate_fixture id
                (λ job v, job +:+ "/" +:+ v) build_fixture (λ s, [s])
                "ns1" None 0 "minimal" config) as H.
  cbv zeta in H. destruct H as (_ & Hns & _ & _ & Hdefault).
  destruct (Hdefault 200%Z) as [H1 H2].
  - reflexivity.
  - reflexivity.
  - vm_compute. reflexivity.
  - split_and!.
    + exact H1.
    + vm_compute in H2. vm_compute. exact H2.
    + exact Hns.
Defined.

Lemma list_training_runtimes_listing_witness :
  let r := Discovery.list_training_runtimes cluster_runtimes_fixture
             namespace_runtimes_fixture (Some "ns1") () in
  Discovery.count r = 2%Z ∧
  Discovery.item_scope <$> Discovery.runtimes r = ["cluster"; "namespace"].
Proof.
  intros r.
  pose proof (list_training_runtimes_listing cluster_runtimes_fixture
                namespace_runtimes_fixture (Some "ns1") ()) as H.
  cbv zeta in H. destruct H as (_ & _ & H & _).
  destruct (H "ns1") as [Hlist Hcount].
  - reflexivity.
  - discriminate.
  - split.
    + vm_compute in Hcount. vm_compute. exact Hcount.
    + subst r. rewrite Hlist. vm_compute. reflexivity.
Defined.

End ExtraScenarios.
